(** * auction-scraper: a shallow embedding of [auction-scraper.js]

    The script reads two environment variables, loads the keys already stored
    in a spreadsheet, walks every configured site page by page, drops the
    rows whose key [title|link] is already known and appends the rest in a
    single batch.

    A JavaScript string is modelled by the bytes of its UTF-8 encoding
    ([String.string]).  [trim] strips every white space and line terminator
    of ECMAScript, in that encoding; [toLowerCase] is modelled on its ASCII
    range, which is all that the twelve ASCII keywords of [guessCategory] can
    observe.  The HTTP client, the HTML query library,
    the URL resolver and the spreadsheet service are external collaborators:
    they enter the model as section variables, and every call to one of them
    is recorded in a trace of events. *)

From Stdlib Require Import ZArith Ascii.
From Stdlib Require String.
From stdpp Require Import base decidable list strings gmap.

Local Open Scope Z_scope.

(** ** JavaScript string primitives *)

Module JsString.

(** [s.startsWith(p)] *)
Fixpoint startsWith (p s : string) : bool :=
  match p, s with
  | EmptyString, _ => true
  | String a p', String b s' => if decide (a = b) then startsWith p' s' else false
  | String _ _, EmptyString => false
  end.

(** [s.includes(needle)]: [needle] occurs at some offset of [s]. *)
Fixpoint includes (needle s : string) : bool :=
  startsWith needle s ||
  match s with
  | EmptyString => false
  | String _ s' => includes needle s'
  end.

(** One code unit of [toLowerCase]: [A]..[Z] move to [a]..[z]. *)
Definition lower_char (c : ascii) : ascii :=
  let n := N_of_ascii c in
  if ((65 <=? n) && (n <=? 90))%N then ascii_of_N (n + 32) else c.

Fixpoint toLowerCase (s : string) : string :=
  match s with
  | EmptyString => EmptyString
  | String c s' => String (lower_char c) (toLowerCase s')
  end.

(** The white space and line terminators of ECMAScript, each as the bytes
    of its UTF-8 encoding: U+0009 to U+000D, U+0020, U+00A0, U+1680, U+2000 to
    U+200A, U+2028, U+2029, U+202F, U+205F, U+3000 and U+FEFF. *)
Definition utf8 (bytes : list nat) : string :=
  fold_right (fun b s => String (ascii_of_nat b) s) EmptyString bytes.

Definition whitespace : list string :=
  utf8 <$>
    [ [9]; [10]; [11]; [12]; [13]; [32];
      [194; 160];
      [225; 154; 128];
      [226; 128; 128]; [226; 128; 129]; [226; 128; 130]; [226; 128; 131];
      [226; 128; 132]; [226; 128; 133]; [226; 128; 134]; [226; 128; 135];
      [226; 128; 136]; [226; 128; 137]; [226; 128; 138];
      [226; 128; 168]; [226; 128; 169]; [226; 128; 175];
      [226; 129; 159];
      [227; 128; 128];
      [239; 187; 191] ]%nat.

Definition is_whitespace (w : string) : bool := bool_decide (w ∈ whitespace).

(** [s.trimStart()]: a white space takes one, two or three bytes. *)
Fixpoint trimStart (s : string) : string :=
  match s with
  | EmptyString => EmptyString
  | String a s1 =>
      if is_whitespace (String a EmptyString) then trimStart s1
      else
        match s1 with
        | EmptyString => s
        | String b s2 =>
            if is_whitespace (String a (String b EmptyString)) then trimStart s2
            else
              match s2 with
              | EmptyString => s
              | String c s3 =>
                  if is_whitespace (String a (String b (String c EmptyString)))
                  then trimStart s3
                  else s
              end
        end
  end.

(** A text made of white space only. *)
Definition blank (s : string) : bool :=
  match trimStart s with EmptyString => true | String _ _ => false end.

(** [s.trimEnd()]: the text is cut where only white space follows. *)
Fixpoint trimEnd (s : string) : string :=
  match s with
  | EmptyString => EmptyString
  | String c s' => if blank s then EmptyString else String c (trimEnd s')
  end.

(** [s.trim()] *)
Definition trim (s : string) : string := trimEnd (trimStart s).

(** Truthiness of a string value: only the empty string is falsy. *)
Definition truthy (s : string) : bool :=
  match s with EmptyString => false | String _ _ => true end.

(** Truthiness of a value that is a string, [undefined] or [null]. *)
Definition truthy_opt (o : option string) : bool :=
  match o with Some s => truthy s | None => false end.

(** [a || b] on strings. *)
Definition or_else (a b : string) : string := if truthy a then a else b.

End JsString.

Import JsString.

(** ** [guessCategory] *)

(** <<
    function guessCategory(title, location, url) {
      const text = `${title} ${location} ${url}`.toLowerCase();
      if (text.includes("property") || text.includes("estate")) return "Property";
      ...
      return "General";
    }
    >> *)
Definition category_text (title location url : string) : string :=
  toLowerCase (title +:+ " " +:+ location +:+ " " +:+ url).

Definition guessCategory (title location url : string) : string :=
  let text := category_text title location url in
  if includes "property" text || includes "estate" text then "Property"
  else if includes "antique" text || includes "collectible" text then "Antiques"
  else if includes "jewel" text || includes "watch" text then "Jewellery"
  else if includes "car" text || includes "vehicle" text then "Motors"
  else if includes "farm" text || includes "tractor" text then "Agriculture"
  else if includes "art" text || includes "painting" text then "Art"
  else "General".

(** ** Data model *)

(** The [selectors] object of a site descriptor.  A property that is not
    written in the descriptor reads as [undefined], here [None]. *)
Record Selectors := {
  sel_item : option string;
  sel_title : option string;
  sel_date : option string;
  sel_location : option string;
  sel_category : option string;
  sel_description : option string;
  sel_link : option string
}.

(** The optional [pagination] object: [next] selector and page [limit]. *)
Record Pagination := {
  pg_next : option string;
  pg_limit : option Z
}.

Record Site := {
  site_name : string;
  site_url : string;
  site_selectors : Selectors;
  site_pagination : option Pagination
}.

(** One scraped row, the array [[title, date, location, category,
    description, link]]. *)
Record Row := {
  row_title : string;
  row_date : string;
  row_location : string;
  row_category : string;
  row_description : string;
  row_link : string
}.

#[global] Instance Row_eq_dec : EqDecision Row.
Proof. solve_decision. Defined.

(** The six cells of a row, as they are sent to the sheet. *)
Definition row_cells (r : Row) : list string :=
  [row_title r; row_date r; row_location r; row_category r;
   row_description r; row_link r].

(** What the HTML query library answers for one matched element:
    [$(el).find(sel).text()] and [$(el).find(sel).attr("href")]. *)
Record Element := {
  find_text : option string -> string;
  find_href : option string -> option string
}.

(** A loaded document: [$(sel)] and [$(sel).attr("href")]. *)
Record Document := {
  query : option string -> list Element;
  query_href : string -> option string
}.

(** The two environment variables read at start-up. *)
Record Env := {
  SHEET_ID : option string;
  SERVICE_ACCOUNT_JSON : option string
}.

Inductive Exn :=
| NetworkError
| InvalidURL
| TypeError
| SyntaxError
| ApiError.

Inductive Message :=
| MsgMissingCredentials
| MsgScrapingPage (page : Z) (url : string)
| MsgErrorOn (url : string) (err : Exn)
| MsgStarting (name : string)
| MsgFound (n : nat) (name : string)
| MsgAdded (n : nat)
| MsgNoNewAuctions.

(** Everything the script does to the outside world. *)
Inductive Event :=
| ConsoleLog (m : Message)
| ConsoleError (m : Message)
| HttpGet (url : string)
| SheetsGet
| SheetsAppend (rows : list Row)
| ProcessExit (code : Z).

#[global] Instance Exn_eq_dec : EqDecision Exn.
Proof. solve_decision. Defined.
#[global] Instance Message_eq_dec : EqDecision Message.
Proof. solve_decision. Defined.
#[global] Instance Event_eq_dec : EqDecision Event.
Proof. solve_decision. Defined.

(** A network call is a request to a site or to the spreadsheet service. *)
Definition is_network (e : Event) : bool :=
  match e with
  | HttpGet _ | SheetsGet | SheetsAppend _ => true
  | _ => false
  end.

Definition is_http_get (e : Event) : bool :=
  match e with HttpGet _ => true | _ => false end.

Definition is_append (e : Event) : bool :=
  match e with SheetsAppend _ => true | _ => false end.

(** Number of pages requested in a trace. *)
Definition pages_fetched (t : list Event) : nat := length (List.filter is_http_get t).

(** ** Results and the state-and-exception monad *)

Inductive Res (A : Type) :=
| Ok (a : A)
| Throw (e : Exn)
| OutOfFuel.
Arguments Ok {A} a.
Arguments Throw {A} e.
Arguments OutOfFuel {A}.

(** [!limit] and the two comparisons against [limit]; a comparison with
    [undefined] is false. *)
Definition js_not_num (n : option Z) : bool :=
  match n with Some k => k =? 0 | None => true end.

Definition js_lt (page : Z) (n : option Z) : bool :=
  match n with Some k => page <? k | None => false end.

Definition js_le (page : Z) (n : option Z) : bool :=
  match n with Some k => page <=? k | None => false end.

(** ** Dedup key *)

(** [row[0] + "|" + row[5]] *)
Definition row_key (r : Row) : string := row_title r +:+ "|" +:+ row_link r.

(** [(r[0] || "") + "|" + (r[5] || "")] on a row read back from the sheet,
    which may be shorter than six cells. *)
Definition cell (r : list string) (i : nat) : string :=
  match r !! i with Some s => or_else s "" | None => "" end.

Definition sheet_key (r : list string) : string := cell r 0 +:+ "|" +:+ cell r 5.

(** The body of the inner loop of the orchestrator:
    <<
    const key = row[0] + "|" + row[5];
    if (!existing.has(key)) { newRows.push(row); existing.add(key); }
    >> *)
Definition dedupRow (acc : gset string * list Row) (row : Row) : gset string * list Row :=
  let '(existing, newRows) := acc in
  let key := row_key row in
  if decide (key ∈ existing) then (existing, newRows)
  else ({[key]} ∪ existing, newRows ++ [row]).

Definition dedupRows (items : list Row) (acc : gset string * list Row) :
    gset string * list Row :=
  fold_left dedupRow items acc.

(** ** The script, over an arbitrary outside world *)

Module Scraper.

Section WithWorld.

(** The state of everything outside the script: the sites and the sheet. *)
Context {World : Type}.

(** [axios.get(url)] followed by [cheerio.load]: the document, or a failure. *)
Variable http_get : string -> World -> option Document * World.

(** [new URL(rel, base).href]; [None] when the constructor throws. *)
Variable url_resolve : string -> string -> option string.

(** [sheets.spreadsheets.values.get]: [None] when the call fails, otherwise
    [res.data.values], itself [undefined] for an empty sheet. *)
Variable sheets_get : World -> option (option (list (list string))) * World.

(** [sheets.spreadsheets.values.append]: [false] when the call fails. *)
Variable sheets_append : list Row -> World -> bool * World.

(** Whether [JSON.parse] accepts the credential blob. *)
Variable json_parse_ok : string -> bool.

Record St := {
  world : World;
  trace : list Event
}.

Definition M (A : Type) : Type := St -> Res A * St.

Definition ret {A} (a : A) : M A := fun st => (Ok a, st).

Definition throw {A} (e : Exn) : M A := fun st => (Throw e, st).

Definition bind {A B} (m : M A) (k : A -> M B) : M B :=
  fun st =>
    match m st with
    | (Ok a, st') => k a st'
    | (Throw e, st') => (Throw e, st')
    | (OutOfFuel, st') => (OutOfFuel, st')
    end.

(** [try { m } catch (err) { h err }] *)
Definition try_catch {A} (m : M A) (h : Exn -> M A) : M A :=
  fun st =>
    match m st with
    | (Throw e, st') => h e st'
    | r => r
    end.

Definition lift {A} (r : Res A) : M A := fun st => (r, st).

Definition record (e : Event) (st : St) : St :=
  {| world := world st; trace := trace st ++ [e] |}.

Definition emit (e : Event) : M unit := fun st => (Ok tt, record e st).

Notation "x <- m ;; k" := (bind m (fun x => k))
  (at level 100, m at next level, right associativity).
Notation "m ;;; k" := (bind m (fun _ => k))
  (at level 100, right associativity).

(** [await axios.get(url)] then [cheerio.load(data)] *)
Definition axios_get (url : string) : M Document :=
  fun st =>
    let '(r, w) := http_get url (world st) in
    let st' := {| world := w; trace := trace st ++ [HttpGet url] |} in
    match r with
    | Some doc => (Ok doc, st')
    | None => (Throw NetworkError, st')
    end.

(** [new URL(rel, base).href] *)
Definition new_URL (rel base : string) : Res string :=
  match url_resolve rel base with
  | Some href => Ok href
  | None => Throw InvalidURL
  end.

(** *** [scrapePage] *)

(** The callback of [$(site.selectors.item).each]: one row per element. *)
Definition scrapeItem (site : Site) (el : Element) : Res Row :=
  let sels := site_selectors site in
  let title := or_else (trim (find_text el (sel_title sels))) "" in
  let date := or_else (trim (find_text el (sel_date sels))) "" in
  let location := or_else (trim (find_text el (sel_location sels))) "" in
  let category :=
    or_else (trim (find_text el (sel_category sels)))
            (guessCategory title location (site_url site)) in
  let description := or_else (trim (find_text el (sel_description sels))) "" in
  let relativeLink := find_href el (sel_link sels) in
  let link :=
    match relativeLink with
    | Some rel => if truthy rel then new_URL rel (site_url site) else Ok (site_url site)
    | None => Ok (site_url site)
    end in
  match link with
  | Ok l =>
      Ok {| row_title := title; row_date := date; row_location := location;
            row_category := category; row_description := description;
            row_link := l |}
  | Throw e => Throw e
  | OutOfFuel => OutOfFuel
  end.

(** [.each] stops at the first callback that throws. *)
Fixpoint scrapeItems (site : Site) (els : list Element) : Res (list Row) :=
  match els with
  | [] => Ok []
  | el :: els' =>
      match scrapeItem site el with
      | Ok r =>
          match scrapeItems site els' with
          | Ok rs => Ok (r :: rs)
          | Throw e => Throw e
          | OutOfFuel => OutOfFuel
          end
      | Throw e => Throw e
      | OutOfFuel => OutOfFuel
      end
  end.

(** <<
    let nextPage = null;
    if (site.pagination?.next) {
      const next = $(site.pagination.next).attr("href");
      if (next && (!site.pagination.limit || page < site.pagination.limit)) {
        nextPage = new URL(next, site.url).href;
      }
    }
    >> *)
Definition nextPageOf (site : Site) (doc : Document) (page : Z) : Res (option string) :=
  match site_pagination site with
  | Some pg =>
      match pg_next pg with
      | Some sel =>
          if truthy sel then
            match query_href doc sel with
            | Some next =>
                if truthy next && (js_not_num (pg_limit pg) || js_lt page (pg_limit pg))
                then match new_URL next (site_url site) with
                     | Ok href => Ok (Some href)
                     | Throw e => Throw e
                     | OutOfFuel => OutOfFuel
                     end
                else Ok None
            | None => Ok None
            end
          else Ok None
      | None => Ok None
      end
  | None => Ok None
  end.

Definition scrapePage (site : Site) (url : string) (page : Z) :
    M (list Row * option string) :=
  emit (ConsoleLog (MsgScrapingPage page url)) ;;;
  doc <- axios_get url ;;
  items <- lift (scrapeItems site (query doc (sel_item (site_selectors site)))) ;;
  nextPage <- lift (nextPageOf site doc page) ;;
  ret (items, nextPage).

(** *** [scrapeSite] *)

(** The second operand of the [while] condition,
    [!site.pagination.limit || page <= site.pagination.limit]; reading
    [.limit] of an absent [pagination] object throws. *)
Definition limit_allows (site : Site) (page : Z) : Res bool :=
  match site_pagination site with
  | Some pg => Ok (js_not_num (pg_limit pg) || js_le page (pg_limit pg))
  | None => Throw TypeError
  end.

(** The [while] loop of [scrapeSite]; [fuel] bounds the number of
    iterations.  The [try] block covers one call of [scrapePage]; the
    condition is evaluated outside of it. *)
Fixpoint walk (fuel : nat) (site : Site) (pageUrl : option string) (page : Z)
    (allItems : list Row) : M (list Row) :=
  match fuel with
  | O => lift OutOfFuel
  | S fuel' =>
      match pageUrl with
      | Some u =>
          if truthy u then
            fun st =>
              match limit_allows site page with
              | Ok true =>
                  match scrapePage site u page st with
                  | (Ok (items, nextPage), st1) =>
                      walk fuel' site nextPage (page + 1) (allItems ++ items) st1
                  | (Throw err, st1) =>
                      (Ok allItems, record (ConsoleError (MsgErrorOn u err)) st1)
                  | (OutOfFuel, st1) => (OutOfFuel, st1)
                  end
              | Ok false => (Ok allItems, st)
              | Throw e => (Throw e, st)
              | OutOfFuel => (OutOfFuel, st)
              end
          else ret allItems
      | None => ret allItems
      end
  end.

Definition scrapeSite (fuel : nat) (site : Site) : M (list Row) :=
  emit (ConsoleLog (MsgStarting (site_name site))) ;;;
  allItems <- walk fuel site (Some (site_url site)) 1 [] ;;
  emit (ConsoleLog (MsgFound (length allItems) (site_name site))) ;;;
  ret allItems.

(** *** The sheet *)

Definition getExistingEntries : M (gset string) :=
  fun st =>
    let '(r, w) := sheets_get (world st) in
    let st' := {| world := w; trace := trace st ++ [SheetsGet] |} in
    match r with
    | Some values =>
        let rows := default [] values in
        (Ok (list_to_set (sheet_key <$> drop 1 rows)), st')
    | None => (Throw ApiError, st')
    end.

Definition appendToSheet (rows : list Row) : M unit :=
  fun st =>
    let '(ok, w) := sheets_append rows (world st) in
    let st' := {| world := w; trace := trace st ++ [SheetsAppend rows] |} in
    if ok then (Ok tt, record (ConsoleLog (MsgAdded (length rows))) st')
    else (Throw ApiError, st').

(** *** The orchestrator *)

(** [for (const site of SITES)]: walk the site, then filter its rows. *)
Fixpoint forSites (fuel : nat) (sites : list Site) (acc : gset string * list Row) :
    M (gset string * list Row) :=
  match sites with
  | [] => ret acc
  | site :: rest =>
      items <- scrapeSite fuel site ;;
      forSites fuel rest (dedupRows items acc)
  end.

(** How a run of the script ends. *)
Inductive Outcome :=
| Completed
| Exited (code : Z)
| Uncaught (e : Exn)
| Unfinished.

Definition credentials_present (env : Env) : bool :=
  truthy_opt (SHEET_ID env) && truthy_opt (SERVICE_ACCOUNT_JSON env).

(** The asynchronous body at the end of the script. *)
Definition run (fuel : nat) (sites : list Site) : M unit :=
  existing <- getExistingEntries ;;
  acc <- forSites fuel sites (existing, []) ;;
  let newRows := snd acc in
  if (0 <? length newRows)%nat then appendToSheet newRows
  else emit (ConsoleLog MsgNoNewAuctions).

(** The whole module, from the credential check on. *)
Definition main (fuel : nat) (env : Env) (sites : list Site) (st : St) : Outcome * St :=
  if negb (credentials_present env) then
    (Exited 1, record (ProcessExit 1) (record (ConsoleError MsgMissingCredentials) st))
  else if negb (json_parse_ok (default "" (SERVICE_ACCOUNT_JSON env))) then
    (Uncaught SyntaxError, st)
  else
    match run fuel sites st with
    | (Ok _, st') => (Completed, st')
    | (Throw e, st') => (Uncaught e, st')
    | (OutOfFuel, st') => (Unfinished, st')
    end.

(** The rows of every site, site by site, as the orchestrator receives
    them from [scrapeSite]. *)
Fixpoint scrapeAll (fuel : nat) (sites : list Site) : M (list (list Row)) :=
  match sites with
  | [] => ret []
  | site :: rest =>
      items <- scrapeSite fuel site ;;
      more <- scrapeAll fuel rest ;;
      ret (items :: more)
  end.

(** [pages_ok site u p st batches u' p' st']: from state [st], with [u] about
    to be fetched as page [p], the loop fetches one page after the other
    without failure, each page yielding its batch of rows and a next-page
    URL, and arrives in state [st'] with [u'] about to be examined as page
    [p']. *)
Inductive pages_ok (site : Site) :
    string -> Z -> St -> list (list Row) -> string -> Z -> St -> Prop :=
| pages_ok_nil u p st :
    pages_ok site u p st [] u p st
| pages_ok_cons u p st items next st1 batches u' p' st' :
    truthy u = true ->
    limit_allows site p = Ok true ->
    scrapePage site u p st = (Ok (items, Some next), st1) ->
    pages_ok site next (p + 1) st1 batches u' p' st' ->
    pages_ok site u p st (items :: batches) u' p' st'.

(** [page_stops site u p st st' items]: page [p] at [u], requested in state
    [st], ends the walk in state [st'] after contributing [items]: either
    [scrapePage] throws and the error is logged, or the page yields no
    next-page URL. *)
Definition page_stops (site : Site) (u : string) (p : Z) (st st' : St)
    (items : list Row) : Prop :=
  (∃ e st1, scrapePage site u p st = (Throw e, st1) ∧
            st' = record (ConsoleError (MsgErrorOn u e)) st1 ∧ items = []) ∨
  scrapePage site u p st = (Ok (items, None), st').

End WithWorld.

Arguments St World : clear implicits.

End Scraper.


(** The events a state has recorded beyond those of an earlier state. *)
Definition grows_by {World} (st st' : Scraper.St World) (t : list Event) : Prop :=
  Scraper.trace st' = Scraper.trace st ++ t.

(** ** What the specification says, in its own words *)

(** [kw] occurs in [text] when letter case is ignored: some substring of
    [text] lower-cases to [kw]. *)
Definition contains_ci (kw text : string) : Prop :=
  ∃ pre mid post, text = pre +:+ mid +:+ post ∧ toLowerCase mid = kw.

(** The keyword groups in their priority order. *)
Definition keyword_groups : list (list string * string) :=
  [ (["property"; "estate"], "Property");
    (["antique"; "collectible"], "Antiques");
    (["jewel"; "watch"], "Jewellery");
    (["car"; "vehicle"], "Motors");
    (["farm"; "tractor"], "Agriculture");
    (["art"; "painting"], "Art") ].

(** [infers groups text c]: [c] is the category of the first group one of
    whose keywords occurs in [text], and ["General"] when no group matches. *)
Inductive infers : list (list string * string) -> string -> string -> Prop :=
| infers_default text :
    infers [] text "General"
| infers_hit kws cat rest text :
    (∃ kw, kw ∈ kws ∧ contains_ci kw text) ->
    infers ((kws, cat) :: rest) text cat
| infers_skip kws cat rest text c :
    (∀ kw, kw ∈ kws -> ¬ contains_ci kw text) ->
    infers rest text c ->
    infers ((kws, cat) :: rest) text c.

(** The executable counterpart of [infers] on an already lower-cased text. *)
Fixpoint first_group (groups : list (list string * string)) (text : string) : string :=
  match groups with
  | [] => "General"
  | (kws, cat) :: rest =>
      if existsb (fun kw => includes kw text) kws then cat else first_group rest text
  end.

(** The category the specification would infer if the three texts were
    concatenated directly. *)
Definition category_of_concatenation (title location url : string) : string :=
  first_group keyword_groups (toLowerCase (title +:+ location +:+ url)).


(** The rows queued out of [rows] when the key set starts as [existing]. *)
Definition queued (existing : gset string) (rows : list Row) : list Row :=
  snd (dedupRows rows (existing, [])).

Definition keys_of (rows : list Row) : gset string :=
  list_to_set (row_key <$> rows).


(** ** A small world to run the script in *)

Module Demo.

(** The descriptor configured in the script. *)
Definition example_selectors : Selectors :=
  {| sel_item := Some ".auction-item";
     sel_title := Some ".auction-title";
     sel_date := Some ".auction-date";
     sel_location := Some ".auction-location";
     sel_category := Some ".auction-category";
     sel_description := Some ".auction-description";
     sel_link := Some "a" |}.

Definition example_site : Site :=
  {| site_name := "Example Auctions";
     site_url := "https://example.com/auctions";
     site_selectors := example_selectors;
     site_pagination := Some {| pg_next := Some ".next-page a"; pg_limit := Some 5 |} |}.

Definition SITES : list Site := [example_site].

(** Variants of the descriptor. *)
Definition with_pagination (pg : option Pagination) (s : Site) : Site :=
  {| site_name := site_name s; site_url := site_url s;
     site_selectors := site_selectors s; site_pagination := pg |}.

Definition with_url (name u : string) (s : Site) : Site :=
  {| site_name := name; site_url := u;
     site_selectors := site_selectors s; site_pagination := site_pagination s |}.


Definition pick {A} (sel : option string) (table : list (string * A)) (dflt : A) : A :=
  match sel with
  | Some s =>
      match list_find (fun kv => bool_decide (fst kv = s)) table with
      | Some (_, (_, v)) => v
      | None => dflt
      end
  | None => dflt
  end.

(** An element of a listing page. *)
Definition element (title date location category description : string)
    (href : option string) : Element :=
  {| find_text sel :=
       pick sel [(".auction-title", title); (".auction-date", date);
                 (".auction-location", location); (".auction-category", category);
                 (".auction-description", description)] "";
     find_href sel := pick sel [("a", href)] None |}.

Definition page (els : list Element) (next : option string) : Document :=
  {| query sel := pick sel [(".auction-item", els)] [];
     query_href sel := pick (Some sel) [(".next-page a", next)] None |}.

Definition lot1 : Element :=
  element "  Antique Car Auction " "1 May" "Leeds" "" "Classic cars" (Some "lot/1").
Definition lot2 : Element :=
  element "Farm sale" "2 May" "York" "Machinery" "" None.
Definition lot1_again : Element :=
  element "Antique Car Auction" "9 May" "Hull" "Vintage" "Relisted" (Some "lot/1").
Definition lot3 : Element :=
  element "Estate clearance" "3 May" "Bath" "" "" (Some "lot/3").

(** A lot whose texts are padded with no-break spaces (U+00A0), its
    category being a lone no-break space. *)
Definition nbsp : string := utf8 [194; 160]%nat.
Definition lot7 : Element :=
  element (nbsp +:+ "Lot 7" +:+ nbsp) "4 May" "Hull" nbsp "" (Some "lot/7").
Definition row7 : Row :=
  {| row_title := "Lot 7"; row_date := "4 May"; row_location := "Hull";
     row_category := "General"; row_description := "";
     row_link := "https://example.com/lot/7" |}.

(** The outside world: the rows of the sheet.  The sites never change. *)
Definition World : Type := list (list string).

Definition http_get (url : string) (w : World) : option Document * World :=
  (pick (Some url)
     [("https://example.com/auctions", Some (page [lot1; lot2] (Some "page2")));
      ("https://example.com/page2", Some (page [lot1_again] (Some "page3")));
      ("https://short.test", Some (page [lot3] (Some "last")));
      ("https://short.test/last", Some (page [lot1_again] None));
      ("https://endless.test", Some (page [lot2] (Some "more")));
      ("https://endless.test/more", Some (page [lot2] (Some "more")))]
     None, w).

(** The URL resolver, [new URL(rel, base).href], on the URLs of this world:
    [base] is an http or https URL made of a lower-case host and a path, and
    [rel] is empty, another such URL (with or without its scheme), a path
    that starts with a slash, a query or a fragment, or a relative path,
    which replaces the last segment of the path of [base].  A base that is
    no such URL is refused, as the constructor throws on it.  Ports, dot
    segments and escapes are left out: no URL of this world has them. *)
Fixpoint strip_prefix (p s : string) : option string :=
  match p, s with
  | EmptyString, _ => Some s
  | String a p', String b s' => if decide (a = b) then strip_prefix p' s' else None
  | String _ _, EmptyString => None
  end.

Definition split_scheme (u : string) : option (string * string) :=
  match strip_prefix "https://" u with
  | Some rest => Some ("https://", rest)
  | None =>
      match strip_prefix "http://" u with
      | Some rest => Some ("http://", rest)
      | None => None
      end
  end.

(** The host, and the path that follows it. *)
Fixpoint split_host (s : string) : string * string :=
  match s with
  | EmptyString => (EmptyString, EmptyString)
  | String c s' =>
      if decide (c = "/"%char) then (EmptyString, s)
      else let '(host, path) := split_host s' in (String c host, path)
  end.

(** The path up to its last slash, the slash included. *)
Fixpoint directory (path : string) : string :=
  match path with
  | EmptyString => EmptyString
  | String c rest =>
      match directory rest with
      | EmptyString => if decide (c = "/"%char) then "/" else EmptyString
      | d => String c d
      end
  end.

Definition or_root (path : string) : string := if truthy path then path else "/".

Definition url_resolve (rel base : string) : option string :=
  match split_scheme base with
  | Some (scheme, rest) =>
      let '(host, path) := split_host rest in
      if truthy host then
        match split_scheme rel with
        | Some (scheme', rest') =>
            let '(host', path') := split_host rest' in
            if truthy host' then Some (scheme' +:+ host' +:+ or_root path') else None
        | None =>
            match rel with
            | EmptyString => Some (scheme +:+ host +:+ or_root path)
            | String "/" (String "/" rest') =>
                let '(host', path') := split_host rest' in
                if truthy host' then Some (scheme +:+ host' +:+ or_root path') else None
            | String "/" _ => Some (scheme +:+ host +:+ rel)
            | String "?" _ | String "#" _ => Some (scheme +:+ host +:+ or_root path +:+ rel)
            | _ => Some (scheme +:+ host +:+ or_root (directory path) +:+ rel)
            end
        end
      else None
  | None => None
  end.

Definition sheets_get (w : World) : option (option (list (list string))) * World :=
  (Some (match w with [] => None | _ => Some w end), w).

Definition sheets_append (rows : list Row) (w : World) : bool * World :=
  (true, w ++ (row_cells <$> rows)).

Definition json_parse_ok (s : string) : bool := startsWith "{" s.

Definition env : Env :=
  {| SHEET_ID := Some "sheet-1"; SERVICE_ACCOUNT_JSON := Some "{}" |}.

Definition header : list string :=
  ["Title"; "Date"; "Location"; "Category"; "Description"; "Link"].

(** The two rows of the key collision: the separator sits in the title of
    the first and in the link of the second. *)
Definition row_ab_c : Row :=
  {| row_title := "a|b"; row_date := "1 May"; row_location := "Leeds";
     row_category := "Art"; row_description := ""; row_link := "c" |}.
Definition row_a_bc : Row :=
  {| row_title := "a"; row_date := "2 May"; row_location := "York";
     row_category := "Motors"; row_description := ""; row_link := "b|c" |}.

(** The rows that the walk of [example_site] extracts from the three lots
    of its two pages. *)
Definition row1 : Row :=
  {| row_title := "Antique Car Auction"; row_date := "1 May"; row_location := "Leeds";
     row_category := "Antiques"; row_description := "Classic cars";
     row_link := "https://example.com/lot/1" |}.
Definition row2 : Row :=
  {| row_title := "Farm sale"; row_date := "2 May"; row_location := "York";
     row_category := "Machinery"; row_description := "";
     row_link := "https://example.com/auctions" |}.
Definition row1_again : Row :=
  {| row_title := "Antique Car Auction"; row_date := "9 May"; row_location := "Hull";
     row_category := "Vintage"; row_description := "Relisted";
     row_link := "https://example.com/lot/1" |}.

Definition start (w : World) : Scraper.St World :=
  {| Scraper.world := w; Scraper.trace := [] |}.

Definition short_site : Site :=
  with_url "Short" "https://short.test"
    (with_pagination (Some {| pg_next := Some ".next-page a"; pg_limit := None |}) example_site).

Definition endless_site (limit : option Z) : Site :=
  with_url "Endless" "https://endless.test"
    (with_pagination (Some {| pg_next := Some ".next-page a"; pg_limit := limit |}) example_site).

Definition scrapeSite := Scraper.scrapeSite http_get url_resolve.
Definition main :=
  Scraper.main http_get url_resolve sheets_get sheets_append json_parse_ok.

End Demo.

(** ** Further notions used to state what the script guarantees *)

(** The key set built from what the sheet returns:
    <<
    const rows = res.data.values || [];
    return new Set(rows.slice(1).map((r) => (r[0] || "") + "|" + (r[5] || "")));
    >> *)
Definition keys_of_values (values : option (list (list string))) : gset string :=
  list_to_set (sheet_key <$> drop 1 (default [] values)).

(** A text made of white space only, in the words of the language
    definition: a sequence of white space and line terminator characters. *)
Inductive Blank : string -> Prop :=
| Blank_empty : Blank EmptyString
| Blank_space w s : w ∈ whitespace -> Blank s -> Blank (w +:+ s).

(** A text that neither starts nor ends with a white space. *)
Definition trimmed (s : string) : Prop :=
  ∀ w rest, w ∈ whitespace -> s ≠ w +:+ rest ∧ s ≠ rest +:+ w.

(** The seven categories a row can be given by inference. *)
Definition categories : list string :=
  ["Property"; "Antiques"; "Jewellery"; "Motors"; "Agriculture"; "Art"; "General"].

(** The descriptor [site] with its page limit replaced, when it has a
    [pagination] object. *)
Definition set_limit (limit : option Z) (site : Site) : Site :=
  {| site_name := site_name site;
     site_url := site_url site;
     site_selectors := site_selectors site;
     site_pagination :=
       match site_pagination site with
       | Some pg => Some {| pg_next := pg_next pg; pg_limit := limit |}
       | None => None
       end |}.

(** Requests to the sheet. *)
Definition is_sheet (e : Event) : bool :=
  match e with
  | SheetsGet | SheetsAppend _ => true
  | _ => false
  end.

(** The URLs requested in a trace, in order. *)
Fixpoint requested (t : list Event) : list string :=
  match t with
  | [] => []
  | HttpGet u :: t' => u :: requested t'
  | _ :: t' => requested t'
  end.

(** The page numbers and URLs announced on the console, in order. *)
Fixpoint announced (t : list Event) : list (Z * string) :=
  match t with
  | [] => []
  | ConsoleLog (MsgScrapingPage p u) :: t' => (p, u) :: announced t'
  | _ :: t' => announced t'
  end.

(** The events a walk can produce. *)
Definition is_walk_event (e : Event) : bool :=
  match e with
  | ConsoleLog _ | ConsoleError _ | HttpGet _ => true
  | _ => false
  end.

(** How the tail of a run's trace can look, after the sites were walked. *)
Inductive run_tail : list Event -> Prop :=
| tail_aborted : run_tail []
| tail_nothing_new : run_tail [ConsoleLog MsgNoNewAuctions]
| tail_append_failed rows : rows ≠ [] -> run_tail [SheetsAppend rows]
| tail_appended rows :
    rows ≠ [] -> run_tail [SheetsAppend rows; ConsoleLog (MsgAdded (length rows))].

(** The URLs a walk of [site] may request: its start URL, and what the URL
    resolver answers for some href against that start URL. *)
Definition reachable_url (url_resolve : string -> string -> option string)
    (site : Site) (u : string) : Prop :=
  u = site_url site ∨ ∃ href, url_resolve href (site_url site) = Some u.

(** The URLs [urls] numbered from [p] on. *)
Definition numbered (p : Z) (urls : list string) : list (Z * string) :=
  imap (fun i u => (p + Z.of_nat i, u)) urls.

(** A descriptor with a page limit between 1 and [B]. *)
Definition limited (B : Z) (site : Site) : Prop :=
  ∃ pg N, site_pagination site = Some pg ∧ pg_limit pg = Some N ∧ 0 < N <= B.

(** ** Strings *)

Lemma app_cons (c : ascii) (s t : string) : String c s +:+ t = String c (s +:+ t).
Proof. reflexivity. Qed.

Lemma app_empty_l (s : string) : "" +:+ s = s.
Proof. reflexivity. Qed.

Lemma app_empty_r (s : string) : s +:+ "" = s.
Proof. induction s as [|c s IH]; [done|]. by rewrite app_cons, IH. Qed.

Lemma app_assoc_str (a b c : string) : (a +:+ b) +:+ c = a +:+ b +:+ c.
Proof. induction a as [|x a IH]; [done|]. by rewrite !app_cons, IH. Qed.

Lemma startsWith_spec (p s : string) :
  startsWith p s = true ↔ ∃ post, s = p +:+ post.
Proof.
  revert s. induction p as [|a p IH]; intros s.
  - split; [intros _; by exists s | done].
  - destruct s as [|b s]; simpl.
    + split; [done | intros [post H]; by rewrite app_cons in H].
    + case_decide as Hab.
      * subst b. rewrite IH. split.
        -- intros [post ->]. exists post. by rewrite app_cons.
        -- intros [post H]. rewrite app_cons in H. exists post. congruence.
      * split; [done | intros [post H]; rewrite app_cons in H; congruence].
Qed.

Lemma includes_spec (needle s : string) :
  includes needle s = true ↔ ∃ pre post, s = pre +:+ needle +:+ post.
Proof.
  induction s as [|c s IH].
  - simpl. rewrite orb_false_r, startsWith_spec. split.
    + intros [post H]. by exists "", post.
    + intros [pre [post H]]. destruct pre as [|x pre]; [by exists post | done].
  - cbn [includes]. rewrite orb_true_iff, startsWith_spec, IH. split.
    + intros [[post H] | [pre [post H]]].
      * by exists "", post.
      * exists (String c pre), post. by rewrite app_cons, H.
    + intros [pre [post H]]. destruct pre as [|x pre].
      * left. by exists post.
      * right. rewrite app_cons in H. exists pre, post. congruence.
Qed.

Lemma toLowerCase_app (a b : string) :
  toLowerCase (a +:+ b) = toLowerCase a +:+ toLowerCase b.
Proof. induction a as [|c a IH]; [done|]. rewrite app_cons. simpl. by rewrite IH. Qed.

Lemma toLowerCase_app_inv (s a b : string) :
  toLowerCase s = a +:+ b ->
  ∃ s1 s2, s = s1 +:+ s2 ∧ toLowerCase s1 = a ∧ toLowerCase s2 = b.
Proof.
  revert s. induction a as [|c a IH]; intros s H.
  - by exists "", s.
  - destruct s as [|x s]; [done|]. rewrite app_cons in H. simpl in H.
    injection H as Hc Hs. destruct (IH _ Hs) as (s1 & s2 & -> & H1 & H2).
    exists (String x s1), s2. simpl. by rewrite Hc, H1.
Qed.

(** Searching the lower-cased text for a keyword is case-insensitive
    substring matching. *)
Lemma contains_ci_includes (kw text : string) :
  contains_ci kw text ↔ includes kw (toLowerCase text) = true.
Proof.
  rewrite includes_spec. split.
  - intros (pre & mid & post & -> & <-).
    exists (toLowerCase pre), (toLowerCase post). by rewrite !toLowerCase_app.
  - intros (a & b & H).
    destruct (toLowerCase_app_inv _ _ _ H) as (pre & rest & -> & Ha & Hr).
    destruct (toLowerCase_app_inv _ _ _ Hr) as (mid & post & -> & Hm & Hp).
    by exists pre, mid, post.
Qed.

Lemma existsb_includes (kws : list string) (text : string) :
  existsb (fun kw => includes kw (toLowerCase text)) kws = true ↔
  ∃ kw, kw ∈ kws ∧ contains_ci kw text.
Proof.
  rewrite existsb_exists. split.
  - intros (kw & Hin & H). exists kw. by rewrite list_elem_of_In, contains_ci_includes.
  - intros (kw & Hin & H). exists kw. by rewrite <- list_elem_of_In, <- contains_ci_includes.
Qed.

Lemma infers_first_group (groups : list (list string * string)) (text c : string) :
  infers groups text c ↔ first_group groups (toLowerCase text) = c.
Proof.
  split.
  - induction 1 as [text | kws cat rest text Hhit | kws cat rest text c Hno _ IH]; simpl.
    + done.
    + apply existsb_includes in Hhit. by rewrite Hhit.
    + destruct (existsb _ kws) eqn:E; [|done].
      apply existsb_includes in E as (kw & Hin & Hc). by destruct (Hno kw).
  - revert c. induction groups as [|[kws cat] rest IH]; intros c; simpl.
    + intros <-. constructor.
    + destruct (existsb _ kws) eqn:E.
      * intros <-. apply infers_hit. by apply existsb_includes.
      * intros H. apply infers_skip; [|by apply IH].
        intros kw Hin Hc. assert (existsb (fun kw => includes kw (toLowerCase text)) kws = true)
          as E' by (apply existsb_includes; eauto).
        congruence.
Qed.

Lemma guessCategory_first_group (title location url : string) :
  guessCategory title location url =
  first_group keyword_groups (category_text title location url).
Proof.
  unfold guessCategory, keyword_groups. cbn [first_group existsb].
  by rewrite !orb_false_r.
Qed.

Lemma guessCategory_infers (title location url : string) :
  infers keyword_groups (title +:+ " " +:+ location +:+ " " +:+ url)
         (guessCategory title location url).
Proof. apply infers_first_group. by rewrite guessCategory_first_group. Qed.

(** ** Deduplication *)

Lemma dedupRows_app (l1 l2 : list Row) (acc : gset string * list Row) :
  dedupRows (l1 ++ l2) acc = dedupRows l2 (dedupRows l1 acc).
Proof. apply fold_left_app. Qed.

Lemma dedupRows_cons (r : Row) (l : list Row) (acc : gset string * list Row) :
  dedupRows (r :: l) acc = dedupRows l (dedupRow acc r).
Proof. reflexivity. Qed.

(** The rows already queued stay in front of the queue. *)
Lemma dedupRows_queue (rows : list Row) (existing : gset string) (newRows : list Row) :
  dedupRows rows (existing, newRows) =
  (fst (dedupRows rows (existing, [])), newRows ++ queued existing rows).
Proof.
  unfold queued. revert existing newRows.
  induction rows as [|r rows IH]; intros existing newRows.
  - simpl. by rewrite app_nil_r.
  - rewrite !dedupRows_cons. cbn [dedupRow]. case_decide.
    + apply IH.
    + rewrite IH, (IH _ ([] ++ [r])). cbn [fst snd]. by rewrite <- app_assoc.
Qed.

(** The key set after the loop holds the old keys and the key of every row
    that went through the loop. *)
Lemma dedupRows_keys (rows : list Row) (existing : gset string) (newRows : list Row) :
  fst (dedupRows rows (existing, newRows)) = existing ∪ keys_of rows.
Proof.
  unfold keys_of. revert existing newRows.
  induction rows as [|r rows IH]; intros existing newRows.
  - simpl. set_solver.
  - rewrite dedupRows_cons. cbn [dedupRow]. case_decide; rewrite IH; set_solver.
Qed.

Lemma queued_nil (existing : gset string) : queued existing [] = [].
Proof. reflexivity. Qed.

Lemma queued_cons (existing : gset string) (r : Row) (rows : list Row) :
  queued existing (r :: rows) =
  if decide (row_key r ∈ existing) then queued existing rows
  else r :: queued ({[row_key r]} ∪ existing) rows.
Proof.
  unfold queued at 1. rewrite dedupRows_cons. cbn [dedupRow]. case_decide.
  - done.
  - by rewrite dedupRows_queue.
Qed.

Lemma queued_app (existing : gset string) (l1 l2 : list Row) :
  queued existing (l1 ++ l2) = queued existing l1 ++ queued (existing ∪ keys_of l1) l2.
Proof.
  unfold queued at 1. rewrite dedupRows_app.
  rewrite (dedupRows_queue l1), dedupRows_queue. cbn [fst snd].
  by rewrite dedupRows_keys.
Qed.

Lemma queued_known (existing : gset string) (r : Row) :
  queued existing [r] = if decide (row_key r ∈ existing) then [] else [r].
Proof. rewrite queued_cons. by case_decide. Qed.

Lemma elem_of_keys_of (k : string) (rows : list Row) :
  k ∈ keys_of rows ↔ k ∈ row_key <$> rows.
Proof. unfold keys_of. apply elem_of_list_to_set. Qed.

(** A row read back from the sheet has the key it was queued under. *)
Lemma sheet_key_row_cells (r : Row) : sheet_key (row_cells r) = row_key r.
Proof.
  unfold sheet_key, row_key, cell, row_cells. cbn [lookup list_lookup].
  unfold or_else. by destruct (row_title r), (row_link r).
Qed.

Import Scraper.

(** ** Traces *)

Lemma pages_fetched_app (t1 t2 : list Event) :
  pages_fetched (t1 ++ t2) = (pages_fetched t1 + pages_fetched t2)%nat.
Proof. unfold pages_fetched. by rewrite List.filter_app, length_app. Qed.

Lemma grows_by_refl {World} (st : Scraper.St World) : grows_by st st [].
Proof. unfold grows_by. by rewrite app_nil_r. Qed.

Lemma grows_by_trans {World} (st1 st2 st3 : Scraper.St World) (t1 t2 : list Event) :
  grows_by st1 st2 t1 -> grows_by st2 st3 t2 -> grows_by st1 st3 (t1 ++ t2).
Proof. unfold grows_by. intros H1 H2. by rewrite H2, H1, app_assoc. Qed.

Lemma grows_by_record {World} (st : Scraper.St World) (e : Event) :
  grows_by st (Scraper.record e st) [e].
Proof. reflexivity. Qed.

(** ** The walk of one site *)

Section Walk.

Context {World : Type}.
Local Abbreviation St := (Scraper.St World).
Variable http_get : string -> World -> option Document * World.
Variable url_resolve : string -> string -> option string.

Local Abbreviation new_URL := (Scraper.new_URL url_resolve).
Local Abbreviation scrapeItem := (Scraper.scrapeItem url_resolve).
Local Abbreviation scrapeItems := (Scraper.scrapeItems url_resolve).
Local Abbreviation nextPageOf := (Scraper.nextPageOf url_resolve).
Local Abbreviation scrapePage := (Scraper.scrapePage http_get url_resolve).
Local Abbreviation walk := (Scraper.walk http_get url_resolve).
Local Abbreviation scrapeSite := (Scraper.scrapeSite http_get url_resolve).
Local Abbreviation pages_ok := (Scraper.pages_ok http_get url_resolve).
Local Abbreviation page_stops := (Scraper.page_stops http_get url_resolve).
Local Abbreviation forSites := (Scraper.forSites http_get url_resolve).

Lemma new_URL_fuel (rel base : string) : new_URL rel base ≠ OutOfFuel.
Proof. unfold Scraper.new_URL. by destruct (url_resolve rel base). Qed.

Lemma scrapeItem_fuel (site : Site) (el : Element) : scrapeItem site el ≠ OutOfFuel.
Proof.
  unfold Scraper.scrapeItem.
  destruct (find_href el _) as [rel|]; [|done].
  destruct (truthy rel); [|done].
  pose proof (new_URL_fuel rel (site_url site)).
  by destruct (new_URL rel (site_url site)).
Qed.

Lemma scrapeItems_fuel (site : Site) (els : list Element) :
  scrapeItems site els ≠ OutOfFuel.
Proof.
  induction els as [|el els IH]; [done|]. simpl.
  pose proof (scrapeItem_fuel site el).
  destruct (scrapeItem site el); [|done|done].
  by destruct (scrapeItems site els).
Qed.

Lemma nextPageOf_fuel (site : Site) (doc : Document) (page : Z) :
  nextPageOf site doc page ≠ OutOfFuel.
Proof.
  unfold Scraper.nextPageOf.
  destruct (site_pagination site) as [pg|]; [|done].
  destruct (pg_next pg) as [sel|]; [|done].
  destruct (truthy sel); [|done].
  destruct (query_href doc sel) as [next|]; [|done].
  destruct (_ && _); [|done].
  pose proof (new_URL_fuel next (site_url site)).
  by destruct (new_URL next (site_url site)).
Qed.

(** One call of [scrapePage] logs the page, requests it once, and returns
    or throws. *)
Lemma scrapePage_shape (site : Site) (u : string) (p : Z) (st : St) :
  ∃ r st',
    scrapePage site u p st = (r, st') ∧ r ≠ OutOfFuel ∧
    grows_by st st' [ConsoleLog (MsgScrapingPage p u); HttpGet u].
Proof.
  unfold Scraper.scrapePage, bind, emit, axios_get, lift, ret, grows_by, record. simpl.
  destruct (http_get u (world st)) as [[doc|] w]; simpl.
  - pose proof (scrapeItems_fuel site (query doc (sel_item (site_selectors site)))) as Hi.
    pose proof (nextPageOf_fuel site doc p) as Hn.
    destruct (scrapeItems site _) as [items|e|];
      [|eexists _, _; split_and!; [done..|by rewrite <- app_assoc]|done].
    destruct (nextPageOf site doc p) as [np|e|]; [| |done];
      (eexists _, _; split_and!; [done..|by rewrite <- app_assoc]).
  - eexists _, _; split_and!; [done..|by rewrite <- app_assoc].
Qed.

(** A next-page URL is always the resolver's answer for the matched href. *)
Lemma scrapePage_next (site : Site) (u : string) (p : Z) (st st' : St)
    (items : list Row) (next : string) :
  scrapePage site u p st = (Ok (items, Some next), st') ->
  ∃ href, url_resolve href (site_url site) = Some next.
Proof.
  unfold Scraper.scrapePage, bind, emit, axios_get, lift, ret. simpl.
  destruct (http_get u (world st)) as [[doc|] w]; simpl; [|done].
  destruct (scrapeItems site _) as [its|e|]; [|done..].
  destruct (nextPageOf site doc p) as [np|e|] eqn:E; [|done..].
  intros [= _ -> _]. revert E. unfold Scraper.nextPageOf.
  destruct (site_pagination site) as [pg|]; [|done].
  destruct (pg_next pg) as [sel|]; [|done].
  destruct (truthy sel); [|done].
  destruct (query_href doc sel) as [href|]; [|done].
  destruct (_ && _); [|done].
  unfold Scraper.new_URL. destruct (url_resolve href (site_url site)) eqn:R; [|done].
  intros [= ->]. eauto.
Qed.

(** Successful pages are followed one after the other. *)
Lemma walk_pages_ok (site : Site) (u : string) (p : Z) (st : St)
    (batches : list (list Row)) (u' : string) (p' : Z) (st' : St) :
  pages_ok site u p st batches u' p' st' ->
  ∀ fuel acc,
    walk (length batches + fuel) site (Some u) p acc st =
    walk fuel site (Some u') p' (acc ++ concat batches) st'.
Proof.
  induction 1 as [u p st | u p st items next st1 batches u' p' st' Hu Hl Hp _ IH];
    intros fuel acc.
  - simpl. by rewrite app_nil_r.
  - cbn [length Nat.add Scraper.walk]. rewrite Hu, Hl, Hp, IH.
    cbn [concat]. by rewrite app_assoc.
Qed.

Lemma pages_ok_page (site : Site) (u : string) (p : Z) (st : St)
    (batches : list (list Row)) (u' : string) (p' : Z) (st' : St) :
  pages_ok site u p st batches u' p' st' -> p' = p + Z.of_nat (length batches).
Proof. induction 1; cbn [length]; lia. Qed.

Lemma pages_ok_snoc (site : Site) (u : string) (p : Z) (st : St)
    (batches : list (list Row)) (u' : string) (p' : Z) (st' : St)
    (items : list Row) (next : string) (st'' : St) :
  pages_ok site u p st batches u' p' st' ->
  truthy u' = true ->
  limit_allows site p' = Ok true ->
  scrapePage site u' p' st' = (Ok (items, Some next), st'') ->
  pages_ok site u p st (batches ++ [items]) next (p' + 1) st''.
Proof.
  induction 1; intros Hu Hl Hp; simpl.
  - econstructor; [done..|constructor].
  - econstructor; [done..|]. by apply IHpages_ok.
Qed.

(** With a positive limit [N] the loop that is about to examine page [p]
    returns after requesting at most [N + 1 - p] further pages. *)
Lemma walk_bounded (site : Site) (pg : Pagination) (N : Z) :
  site_pagination site = Some pg ->
  pg_limit pg = Some N ->
  0 < N ->
  ∀ fuel pageUrl p acc (st : St),
    (Z.to_nat (N + 1 - p) < fuel)%nat ->
    ∃ items st' t,
      walk fuel site pageUrl p acc st = (Ok items, st') ∧
      grows_by st st' t ∧
      (pages_fetched t <= Z.to_nat (N + 1 - p))%nat.
Proof.
  intros Hpg HN Hpos. induction fuel as [|fuel IH]; intros pageUrl p acc st Hfuel; [lia|].
  assert (∃ t, grows_by st st t ∧ (pages_fetched t <= Z.to_nat (N + 1 - p))%nat) as Hstay.
  { exists []. split; [apply grows_by_refl | unfold pages_fetched; simpl; lia]. }
  cbn [Scraper.walk]. destruct pageUrl as [u|]; [|destruct Hstay as [t ?]; by exists acc, st, t].
  destruct (truthy u); [|destruct Hstay as [t ?]; by exists acc, st, t].
  unfold limit_allows. rewrite Hpg, HN. cbn [js_not_num js_le].
  replace (N =? 0) with false by lia. cbn [orb].
  destruct (Z.leb_spec p N) as [Hle|Hgt]; [|destruct Hstay as [t ?]; by exists acc, st, t].
  destruct (scrapePage_shape site u p st) as (r & st1 & -> & Hr & Hg).
  destruct r as [[items np]|e|]; [| |done].
  - destruct (IH np (p + 1) (acc ++ items) st1) as (its & st' & t & -> & Hg' & Hn); [lia|].
    eexists _, _, _. split_and!; [done|by eapply grows_by_trans|].
    rewrite pages_fetched_app. cbn. lia.
  - eexists _, _, _. split_and!; [done|eapply grows_by_trans; [done|apply grows_by_record]|].
    rewrite pages_fetched_app. cbn. lia.
Qed.

(** Without a limit the loop returns only at a page that fails or that
    yields no next-page URL. *)
Lemma walk_unbounded (site : Site) (pg : Pagination) :
  site_pagination site = Some pg ->
  js_not_num (pg_limit pg) = true ->
  (∀ rel base href, url_resolve rel base = Some href -> href ≠ "") ->
  ∀ fuel u p acc (st : St) items st',
    truthy u = true ->
    walk fuel site (Some u) p acc st = (Ok items, st') ->
    ∃ batches u' p' st1 last,
      pages_ok site u p st batches u' p' st1 ∧
      truthy u' = true ∧
      page_stops site u' p' st1 st' last ∧
      items = acc ++ concat batches ++ last.
Proof.
  intros Hpg Hlim Hres. induction fuel as [|fuel IH]; intros u p acc st items st' Hu; [done|].
  assert (∀ q, limit_allows site q = Ok true) as Hallow.
  { intros q. unfold limit_allows. by rewrite Hpg, Hlim. }
  cbn [Scraper.walk]. rewrite Hu, Hallow.
  destruct (scrapePage site u p st) as [[[its [next|]]|e|] st1] eqn:Hp.
  - intros Hw.
    assert (truthy next = true) as Hnext.
    { destruct (scrapePage_next _ _ _ _ _ _ _ Hp) as [href Hhref].
      apply Hres in Hhref. by destruct next. }
    destruct (IH _ _ _ _ _ _ Hnext Hw) as (batches & u' & p' & st2 & last & Hok & Hu' & Hstop & ->).
    exists (its :: batches), u', p', st2, last. split_and!; [|done..|].
    + by econstructor.
    + cbn [concat]. by rewrite <- !app_assoc.
  - destruct fuel; [done|]. intros [= <- <-].
    exists [], u, p, st, its. split_and!; [constructor|done|by right|done].
  - intros [= <- <-].
    exists [], u, p, st, []. split_and!; [constructor|done| |by rewrite !app_nil_r].
    left. by exists e, st1.
  - done.
Qed.

Lemma scrapeSite_unfold (fuel : nat) (site : Site) (st : St) :
  scrapeSite fuel site st =
  match walk fuel site (Some (site_url site)) 1 []
             (record (ConsoleLog (MsgStarting (site_name site))) st) with
  | (Ok items, st') =>
      (Ok items, record (ConsoleLog (MsgFound (length items) (site_name site))) st')
  | (Throw e, st') => (Throw e, st')
  | (OutOfFuel, st') => (OutOfFuel, st')
  end.
Proof.
  unfold Scraper.scrapeSite, bind, emit, ret.
  by destruct (walk fuel site _ 1 [] _) as [[items|e|] st'].
Qed.

(** C3: a site with a positive page limit [N] is walked in at most [N]
    page requests, whatever the pages answer: with fuel for [N + 1]
    evaluations of the loop condition the walk returns.  A site without a
    limit (none configured, or 0, which the script reads alike) and with a
    start URL returns only after a page that failed or that yielded no
    next-page URL: every earlier page succeeded and was followed. *)
Theorem pagination_terminates (site : Site) (pg : Pagination) :
  site_pagination site = Some pg ->
  (∀ N fuel (st : St),
     pg_limit pg = Some N ->
     0 < N ->
     (Z.to_nat N < fuel)%nat ->
     ∃ items st' t,
       scrapeSite fuel site st = (Ok items, st') ∧
       grows_by st st' t ∧
       (pages_fetched t <= Z.to_nat N)%nat) ∧
  (∀ fuel (st : St) items st',
     js_not_num (pg_limit pg) = true ->
     truthy (site_url site) = true ->
     (∀ rel base href, url_resolve rel base = Some href -> href ≠ "") ->
     scrapeSite fuel site st = (Ok items, st') ->
     ∃ batches u p st1 st2 last,
       pages_ok site (site_url site) 1
                (record (ConsoleLog (MsgStarting (site_name site))) st)
                batches u p st1 ∧
       page_stops site u p st1 st2 last ∧
       items = concat batches ++ last ∧
       st' = record (ConsoleLog (MsgFound (length items) (site_name site))) st2).
Proof.
  intros Hpg. split.
  - intros N fuel st HN Hpos Hfuel. rewrite scrapeSite_unfold.
    destruct (walk_bounded site pg N Hpg HN Hpos fuel (Some (site_url site)) 1 []
                (record (ConsoleLog (MsgStarting (site_name site))) st))
      as (items & st' & t & -> & Hg & Hn); [by replace (N + 1 - 1) with N by lia|].
    eexists _, _, _. split_and!; [done| |].
    + eapply grows_by_trans; [eapply grows_by_trans; [apply grows_by_record|done]|].
      apply grows_by_record.
    + rewrite !pages_fetched_app. replace (N + 1 - 1) with N in Hn by lia.
      unfold pages_fetched at 1 3. simpl. lia.
  - intros fuel st items st' Hlim Hu Hres. rewrite scrapeSite_unfold.
    destruct (walk fuel site _ 1 [] _) as [[its|e|] st2] eqn:Hw; [|done..].
    intros [= <- <-].
    destruct (walk_unbounded site pg Hpg Hlim Hres _ _ _ _ _ _ _ Hu Hw)
      as (batches & u & p & st1 & last & Hok & _ & Hstop & ->).
    by exists batches, u, p, st1, st2, last.
Qed.

(** C4: when pages 1 to n-1 of a site have been scraped and the call of
    [scrapePage] for page n throws, be it in the request or in the
    extraction, the walk returns exactly the rows of pages 1 to n-1; after
    the failed request it only logs the error and the item count, so the
    page is not requested again; and the site loop goes on with the
    remaining sites. *)
Theorem page_failure_stops_walk (site : Site) (batches : list (list Row)) (u : string)
    (n : Z) (st0 stn stf : St) (e : Exn) (fuel : nat) :
  pages_ok site (site_url site) 1
           (record (ConsoleLog (MsgStarting (site_name site))) st0) batches u n stn ->
  truthy u = true ->
  limit_allows site n = Ok true ->
  scrapePage site u n stn = (Throw e, stf) ->
  (length batches < fuel)%nat ->
  let st' := record (ConsoleLog (MsgFound (length (concat batches)) (site_name site)))
                    (record (ConsoleError (MsgErrorOn u e)) stf) in
  n = 1 + Z.of_nat (length batches) ∧
  scrapeSite fuel site st0 = (Ok (concat batches), st') ∧
  grows_by stn st'
    [ConsoleLog (MsgScrapingPage n u); HttpGet u; ConsoleError (MsgErrorOn u e);
     ConsoleLog (MsgFound (length (concat batches)) (site_name site))] ∧
  (∀ rest acc,
     forSites fuel (site :: rest) acc st0 =
     forSites fuel rest (dedupRows (concat batches) acc) st').
Proof.
  intros Hok Hu Hl Hp Hfuel st'.
  assert (scrapeSite fuel site st0 = (Ok (concat batches), st')) as Hsite.
  { rewrite scrapeSite_unfold.
    replace fuel with (length batches + S (fuel - S (length batches)))%nat by lia.
    rewrite (walk_pages_ok _ _ _ _ _ _ _ _ Hok). cbn [Scraper.walk app].
    by rewrite Hu, Hl, Hp. }
  split_and!.
  - apply (pages_ok_page _ _ _ _ _ _ _ _ Hok).
  - done.
  - destruct (scrapePage_shape site u n stn) as (r & st1 & Hp' & _ & Hg).
    rewrite Hp in Hp'. injection Hp' as <- <-.
    unfold grows_by in *. subst st'. cbn [record trace]. rewrite Hg.
    by rewrite <- !app_assoc.
  - intros rest acc. cbn [Scraper.forSites]. unfold bind. by rewrite Hsite.
Qed.

Lemma scrapeItem_link (site : Site) (el : Element) (r : Row) :
  scrapeItem site el = Ok r ->
  match find_href el (sel_link (site_selectors site)) with
  | Some rel =>
      if truthy rel then url_resolve rel (site_url site) = Some (row_link r)
      else row_link r = site_url site
  | None => row_link r = site_url site
  end.
Proof.
  unfold Scraper.scrapeItem.
  destruct (find_href el _) as [rel|]; [|by intros [= <-]].
  destruct (truthy rel); [|by intros [= <-]].
  unfold Scraper.new_URL. destruct (url_resolve rel (site_url site)); [|done].
  by intros [= <-].
Qed.

(** A walk that returns rows started from a non-empty base URL. *)
Lemma scrapeSite_rows_url (fuel : nat) (site : Site) (st : St) (items : list Row)
    (st' : St) (r : Row) :
  scrapeSite fuel site st = (Ok items, st') -> r ∈ items -> site_url site ≠ "".
Proof.
  rewrite scrapeSite_unfold. intros H Hr Hurl. rewrite Hurl in H.
  destruct fuel; [done|]. cbn in H. injection H as <- _. by apply elem_of_nil in Hr.
Qed.

(** C6: the link of an extracted row is the href matched by the link
    selector, resolved against the base URL of the site, when there is such
    an href; when the link selector gives no href (or an empty one) the link
    is exactly the base URL of the site, and for a row returned by a walk
    that is not the empty string. *)
Theorem link_resolution (site : Site) (el : Element) (r : Row) :
  scrapeItem site el = Ok r ->
  (∀ rel, find_href el (sel_link (site_selectors site)) = Some rel ->
          rel ≠ "" ->
          url_resolve rel (site_url site) = Some (row_link r)) ∧
  (truthy_opt (find_href el (sel_link (site_selectors site))) = false ->
   row_link r = site_url site ∧
   ∀ fuel (st : St) items st',
     scrapeSite fuel site st = (Ok items, st') -> r ∈ items -> row_link r ≠ "").
Proof.
  intros Hrow. pose proof (scrapeItem_link _ _ _ Hrow) as Hlink. split.
  - intros rel Hrel Hne. rewrite Hrel in Hlink. by destruct rel.
  - intros Hno.
    assert (row_link r = site_url site) as Heq.
    { destruct (find_href el _) as [rel|]; [|done]. cbn in Hno. by rewrite Hno in Hlink. }
    split; [done|]. intros fuel st items st' Hsite Hr. rewrite Heq.
    by eapply scrapeSite_rows_url.
Qed.

(** The walk of a site never touches the sheet. *)
Lemma walk_trace (site : Site) (fuel : nat) :
  ∀ pageUrl p acc (st : St),
    ∃ r st' t,
      walk fuel site pageUrl p acc st = (r, st') ∧
      grows_by st st' t ∧ List.filter is_append t = [].
Proof.
  induction fuel as [|fuel IH]; intros pageUrl p acc st.
  { exists OutOfFuel, st, []. split_and!; [done|apply grows_by_refl|done]. }
  cbn [Scraper.walk].
  destruct pageUrl as [u|];
    [|exists (Ok acc), st, []; split_and!; [done|apply grows_by_refl|done]].
  destruct (truthy u);
    [|exists (Ok acc), st, []; split_and!; [done|apply grows_by_refl|done]].
  destruct (limit_allows site p) as [[|]|e|];
    try (eexists _, st, []; split_and!; [done|apply grows_by_refl|done]).
  destruct (scrapePage_shape site u p st) as (r & st1 & -> & Hr & Hg).
  destruct r as [[items np]|e|]; [| |done].
  - destruct (IH np (p + 1) (acc ++ items) st1) as (r & st' & t & -> & Hg' & Hn).
    exists r, st', ([ConsoleLog (MsgScrapingPage p u); HttpGet u] ++ t).
    split_and!; [done|by eapply grows_by_trans|].
    by rewrite List.filter_app, Hn.
  - eexists _, _, ([ConsoleLog (MsgScrapingPage p u); HttpGet u] ++ [_]).
    split_and!; [done|eapply grows_by_trans; [done|apply grows_by_record]|done].
Qed.

Lemma scrapeSite_trace (site : Site) (fuel : nat) (st : St) :
  ∃ r st' t,
    scrapeSite fuel site st = (r, st') ∧
    grows_by st st' (ConsoleLog (MsgStarting (site_name site)) :: t) ∧
    List.filter is_append t = [].
Proof.
  rewrite scrapeSite_unfold.
  destruct (walk_trace site fuel (Some (site_url site)) 1 []
              (record (ConsoleLog (MsgStarting (site_name site))) st))
    as (r & st' & t & -> & Hg & Hn).
  destruct r as [items|e|].
  - eexists _, _, (t ++ [ConsoleLog (MsgFound (length items) (site_name site))]).
    split_and!; [done| |by rewrite List.filter_app, Hn].
    eapply (grows_by_trans _ _ _ [_]); [apply grows_by_record|].
    eapply grows_by_trans; [done|apply grows_by_record].
  - eexists _, _, t. split_and!; [done| |done].
    eapply (grows_by_trans _ _ _ [_]); [apply grows_by_record|done].
  - eexists _, _, t. split_and!; [done| |done].
    eapply (grows_by_trans _ _ _ [_]); [apply grows_by_record|done].
Qed.

Lemma forSites_trace (fuel : nat) (sites : list Site) :
  ∀ acc (st : St),
    ∃ r st' t,
      forSites fuel sites acc st = (r, st') ∧
      grows_by st st' t ∧ List.filter is_append t = [].
Proof.
  induction sites as [|site rest IH]; intros acc st.
  { exists (Ok acc), st, []. split_and!; [done|apply grows_by_refl|done]. }
  cbn [Scraper.forSites]. unfold bind.
  destruct (scrapeSite_trace site fuel st) as (r & st1 & t & -> & Hg & Hn).
  destruct r as [items|e|]; [|by eexists _, _, _..].
  destruct (IH (dedupRows items acc) st1) as (r & st' & t' & -> & Hg' & Hn').
  exists r, st', ((ConsoleLog (MsgStarting (site_name site)) :: t) ++ t').
  split_and!; [done|by eapply grows_by_trans|].
  rewrite List.filter_app. cbn [List.filter is_append]. by rewrite Hn, Hn'.
Qed.

(** A site without a [pagination] object makes the loop condition throw,
    outside of the [try] block. *)
Lemma scrapeSite_without_pagination (fuel : nat) (site : Site) (st : St) :
  site_pagination site = None ->
  truthy (site_url site) = true ->
  scrapeSite (S fuel) site st =
  (Throw TypeError, record (ConsoleLog (MsgStarting (site_name site))) st).
Proof.
  intros Hpg Hu. rewrite scrapeSite_unfold. cbn [Scraper.walk].
  unfold limit_allows. by rewrite Hu, Hpg.
Qed.


End Walk.

(** ** Category inference *)

Lemma scrapeItem_category (url_resolve : string -> string -> option string)
    (site : Site) (el : Element) (r : Row) :
  scrapeItem url_resolve site el = Ok r ->
  row_category r =
    or_else (trim (find_text el (sel_category (site_selectors site))))
            (guessCategory (row_title r) (row_location r) (site_url site)).
Proof.
  unfold scrapeItem.
  destruct (match find_href el _ with Some _ => _ | None => _ end); [|done..].
  by intros [= <-].
Qed.

Lemma or_else_empty (s : string) : or_else s "" = s.
Proof. by destruct s. Qed.

Lemma scrapeItem_fields (url_resolve : string -> string -> option string)
    (site : Site) (el : Element) (r : Row) :
  scrapeItem url_resolve site el = Ok r ->
  row_title r = trim (find_text el (sel_title (site_selectors site))) ∧
  row_date r = trim (find_text el (sel_date (site_selectors site))) ∧
  row_location r = trim (find_text el (sel_location (site_selectors site))) ∧
  row_description r = trim (find_text el (sel_description (site_selectors site))).
Proof.
  unfold scrapeItem.
  destruct (match find_href el _ with Some _ => _ | None => _ end); [|done..].
  intros [= <-]. cbn. by rewrite !or_else_empty.
Qed.

(** C2, as amended: when the category selector yields empty text, the
    category of the row is inferred by case-insensitive substring matching
    over the text made of the title, a space, the location, a space and the
    base URL; the keyword groups are tried in their fixed order and the
    first group with a keyword in the text wins, ["General"] being the
    answer when none matches.  A text with "antique" in it is never
    classified as "Motors": it gives "Antiques" unless a keyword of the
    "Property" group occurs too, and the title "Antique Car Auction" on the
    configured site gives "Antiques". *)
Theorem category_inference (url_resolve : string -> string -> option string)
    (site : Site) (el : Element) (r : Row) :
  trim (find_text el (sel_category (site_selectors site))) = "" ->
  scrapeItem url_resolve site el = Ok r ->
  infers keyword_groups
         (row_title r +:+ " " +:+ row_location r +:+ " " +:+ site_url site)
         (row_category r) ∧
  (∀ title location url,
     infers keyword_groups (title +:+ " " +:+ location +:+ " " +:+ url)
            (guessCategory title location url)) ∧
  (∀ title location url,
     contains_ci "antique" (title +:+ " " +:+ location +:+ " " +:+ url) ->
     guessCategory title location url ≠ "Motors" ∧
     (¬ contains_ci "property" (title +:+ " " +:+ location +:+ " " +:+ url) ->
      ¬ contains_ci "estate" (title +:+ " " +:+ location +:+ " " +:+ url) ->
      guessCategory title location url = "Antiques")) ∧
  guessCategory "Antique Car Auction" "" "https://example.com/auctions" = "Antiques".
Proof.
  intros Hempty Hrow. split_and!.
  - rewrite (scrapeItem_category _ _ _ _ Hrow), Hempty. apply guessCategory_infers.
  - apply guessCategory_infers.
  - intros title location url Hc. rewrite !contains_ci_includes in *.
    unfold guessCategory. fold (category_text title location url) in *. cbn zeta.
    rewrite Hc. cbn [orb]. split; [by destruct (_ || _)|].
    intros Hp He. apply not_true_is_false in Hp, He. by rewrite Hp, He.
  - reflexivity.
Qed.

Lemma category_inference_witness :
  infers keyword_groups "Antique Car Auction Leeds https://example.com/auctions" "Antiques".
Proof.
  refine (proj1 (category_inference Demo.url_resolve Demo.example_site Demo.lot1
                   Demo.row1 _ _)); reflexivity.
Defined.

(** C2, as stated, fails: matching over the bare concatenation of title,
    location and base URL finds "car" across the boundary of "Classic" and
    "Armagh" and answers "Motors", where the script answers "General".
    Besides, a text with both "antique" and "car" gives "Property" when the
    base URL holds "estate". *)
Lemma category_concatenation_differs :
  guessCategory "Classic" "Armagh" "https://example.com/auctions" = "General" ∧
  category_of_concatenation "Classic" "Armagh" "https://example.com/auctions" = "Motors" ∧
  ¬ infers keyword_groups ("Classic" +:+ "Armagh" +:+ "https://example.com/auctions")
           (guessCategory "Classic" "Armagh" "https://example.com/auctions") ∧
  guessCategory "Antique Car Auction" "" "https://estates.example.com" = "Property".
Proof.
  split_and!; [reflexivity..| |reflexivity].
  rewrite infers_first_group. by vm_compute.
Qed.

(** ** The dedup key *)

(** C10: the key [title + "|" + link] does not determine the pair
    (title, link).  The rows with title "a|b", link "c" and with title "a",
    link "b|c" differ in both fields and share the key "a|b|c"; so the
    second is dropped when it follows the first in a run, and when the first
    is already in the sheet.  The same happens with any title that holds
    the separator. *)
Theorem dedup_key_collision :
  row_title Demo.row_ab_c ≠ row_title Demo.row_a_bc ∧
  row_link Demo.row_ab_c ≠ row_link Demo.row_a_bc ∧
  row_key Demo.row_ab_c = row_key Demo.row_a_bc ∧
  queued ∅ [Demo.row_ab_c; Demo.row_a_bc] = [Demo.row_ab_c] ∧
  queued (list_to_set (sheet_key <$> [row_cells Demo.row_ab_c])) [Demo.row_a_bc] = [] ∧
  (∀ a b c d1 l1 g1 s1 d2 l2 g2 s2,
     row_key {| row_title := a +:+ "|" +:+ b; row_date := d1; row_location := l1;
                row_category := g1; row_description := s1; row_link := c |} =
     row_key {| row_title := a; row_date := d2; row_location := l2;
                row_category := g2; row_description := s2;
                row_link := b +:+ "|" +:+ c |}).
Proof.
  split_and!; [done|done|reflexivity| | |].
  - rewrite queued_cons, decide_False by set_solver.
    rewrite queued_known, decide_True; [done|].
    apply elem_of_union_l, elem_of_singleton. reflexivity.
  - rewrite queued_known, decide_True; [done|].
    cbn [fmap list_fmap list_to_set]. rewrite sheet_key_row_cells.
    apply elem_of_union_l, elem_of_singleton. reflexivity.
  - intros. unfold row_key. cbn [row_title row_link]. by rewrite !app_assoc_str.
Qed.

(** ** First occurrences *)

Lemma keys_of_app (l1 l2 : list Row) : keys_of (l1 ++ l2) = keys_of l1 ∪ keys_of l2.
Proof. unfold keys_of. by rewrite fmap_app, list_to_set_app_L. Qed.

Lemma keys_of_singleton (r : Row) : keys_of [r] = {[row_key r]}.
Proof. unfold keys_of. cbn. set_solver. Qed.

(** The row at a given place of the run is queued exactly when its key is
    neither in the history nor carried by an earlier row of the run. *)
Lemma queued_split (existing : gset string) (pre : list Row) (r : Row) (post : list Row) :
  queued existing (pre ++ r :: post) =
  queued existing pre ++
  (if decide (row_key r ∈ existing ∨ row_key r ∈ row_key <$> pre) then [] else [r]) ++
  queued (existing ∪ keys_of (pre ++ [r])) post.
Proof.
  change (r :: post) with ([r] ++ post).
  rewrite queued_app, queued_app, queued_known.
  rewrite keys_of_app, keys_of_singleton, (assoc_L (∪)).
  do 2 f_equal.
  destruct (decide (row_key r ∈ existing ∪ keys_of pre)) as [Hin|Hout].
  - rewrite decide_True; [done|].
    apply elem_of_union in Hin as [?|?]; [by left|right; by apply elem_of_keys_of].
  - rewrite decide_False; [done|].
    intros [?|?]; apply Hout, elem_of_union; [by left|right; by apply elem_of_keys_of].
Qed.

(** A later row with the title and link of an earlier one is dropped,
    whatever its other fields. *)
Lemma queued_later_duplicate (existing : gset string) (pre : list Row) (r : Row)
    (mid : list Row) (r' : Row) (post : list Row) :
  row_title r' = row_title r ->
  row_link r' = row_link r ->
  queued existing (pre ++ r :: mid ++ r' :: post) =
  queued existing (pre ++ r :: mid) ++
  queued (existing ∪ keys_of (pre ++ r :: mid ++ [r'])) post.
Proof.
  intros Ht Hl.
  replace (pre ++ r :: mid ++ r' :: post) with ((pre ++ r :: mid) ++ r' :: post)
    by (by rewrite <- app_assoc).
  rewrite queued_split, decide_True.
  - cbn [app]. do 2 f_equal. by rewrite <- !app_assoc.
  - right. rewrite fmap_app, fmap_cons. unfold row_key at 1. rewrite Ht, Hl.
    apply elem_of_app. right. left.
Qed.

Lemma keys_of_queued (rows : list Row) (existing : gset string) :
  existing ∪ keys_of (queued existing rows) = existing ∪ keys_of rows.
Proof.
  revert existing. induction rows as [|r rows IH]; intros existing; [done|].
  rewrite queued_cons. change (r :: rows) with ([r] ++ rows).
  rewrite keys_of_app, keys_of_singleton. case_decide as Hin.
  - rewrite IH. set_solver.
  - change (r :: queued ({[row_key r]} ∪ existing) rows)
      with ([r] ++ queued ({[row_key r]} ∪ existing) rows).
    rewrite keys_of_app, keys_of_singleton.
    pose proof (IH ({[row_key r]} ∪ existing)) as H. set_solver.
Qed.

Lemma queued_fresh (rows : list Row) (existing : gset string) (r : Row) :
  r ∈ queued existing rows -> row_key r ∉ existing.
Proof.
  revert existing. induction rows as [|x rows IH]; intros existing.
  - rewrite queued_nil. by intros ?%elem_of_nil.
  - rewrite queued_cons. case_decide as Hin.
    + apply IH.
    + intros [->|Hr]%elem_of_cons; [done|].
      apply IH in Hr. set_solver.
Qed.

(** A stored row that carries the title and the link of a scraped row has
    its key. *)
Lemma sheet_key_of_cells (cells : list string) (r : Row) :
  cells !! 0%nat = Some (row_title r) ->
  cells !! 5%nat = Some (row_link r) ->
  sheet_key cells = row_key r.
Proof.
  intros H0 H5. unfold sheet_key, row_key, cell. by rewrite H0, H5, !or_else_empty.
Qed.

(** ** The orchestrator *)

Section Run.

Context {World : Type}.
Local Abbreviation St := (Scraper.St World).
Variable http_get : string -> World -> option Document * World.
Variable url_resolve : string -> string -> option string.
Variable sheets_get : World -> option (option (list (list string))) * World.
Variable sheets_append : list Row -> World -> bool * World.
Variable json_parse_ok : string -> bool.

Local Abbreviation scrapePage := (Scraper.scrapePage http_get url_resolve).
Local Abbreviation walk := (Scraper.walk http_get url_resolve).
Local Abbreviation scrapeSite := (Scraper.scrapeSite http_get url_resolve).
Local Abbreviation scrapeAll := (Scraper.scrapeAll http_get url_resolve).
Local Abbreviation forSites := (Scraper.forSites http_get url_resolve).
Local Abbreviation getExistingEntries := (Scraper.getExistingEntries sheets_get).
Local Abbreviation appendToSheet := (Scraper.appendToSheet sheets_append).
Local Abbreviation run :=
  (Scraper.run http_get url_resolve sheets_get sheets_append).
Local Abbreviation main :=
  (Scraper.main http_get url_resolve sheets_get sheets_append json_parse_ok).

(** The site loop filters, in order, the rows of all sites. *)
Lemma forSites_scrapeAll (fuel : nat) (sites : list Site)
    (acc : gset string * list Row) (st : St) :
  forSites fuel sites acc st =
  match scrapeAll fuel sites st with
  | (Ok batches, st') => (Ok (dedupRows (concat batches) acc), st')
  | (Throw e, st') => (Throw e, st')
  | (OutOfFuel, st') => (OutOfFuel, st')
  end.
Proof.
  revert acc st. induction sites as [|site rest IH]; intros acc st; [reflexivity|].
  cbn [Scraper.forSites Scraper.scrapeAll]. unfold bind.
  destruct (scrapeSite fuel site st) as [[items|e|] st1]; [|done..].
  rewrite IH. unfold bind, ret.
  destruct (scrapeAll fuel rest st1) as [[batches|e|] st2]; [|done..].
  cbn [concat]. by rewrite dedupRows_app.
Qed.

(** C1, as amended: the history of a run is made of the rows of the sheet
    after the first one, which is taken for a header and never counts.  In a
    run that read [values] from the sheet and received [rows] from the walks
    of all sites, page after page and site after site, the rows handed to the
    append are the first occurrences across that history and the run: a
    scraped row with the title and the link of a stored row of the history
    is never queued; the row at any place of [rows] is queued exactly when
    its key is neither the key of a stored row of the history nor carried by
    an earlier row; a later row with the same title and link is dropped
    whatever its other fields; and the key set ends up holding the keys of
    the history and the key of every accepted row. *)
Theorem first_occurrence_only (fuel : nat) (sites : list Site) (st st2 : St)
    (values : option (list (list string))) (w : World) (batches : list (list Row)) :
  sheets_get (world st) = (Some values, w) ->
  scrapeAll fuel sites {| world := w; trace := trace st ++ [SheetsGet] |} =
    (Ok batches, st2) ->
  let stored := drop 1 (default [] values) in
  let history : gset string := list_to_set (sheet_key <$> stored) in
  let rows := concat batches in
  run fuel sites st =
    (if (0 <? length (queued history rows))%nat
     then appendToSheet (queued history rows)
     else emit (ConsoleLog MsgNoNewAuctions)) st2 ∧
  (∀ cells r,
     cells ∈ stored ->
     cells !! 0%nat = Some (row_title r) ->
     cells !! 5%nat = Some (row_link r) ->
     r ∉ queued history rows) ∧
  (∀ pre r post,
     rows = pre ++ r :: post ->
     queued history rows =
       queued history pre ++
       (if decide (row_key r ∈ sheet_key <$> stored ∨ row_key r ∈ row_key <$> pre)
        then [] else [r]) ++
       queued (history ∪ keys_of (pre ++ [r])) post) ∧
  (∀ pre r mid r' post,
     rows = pre ++ r :: mid ++ r' :: post ->
     row_title r' = row_title r ->
     row_link r' = row_link r ->
     queued history rows =
       queued history (pre ++ r :: mid) ++
       queued (history ∪ keys_of (pre ++ r :: mid ++ [r'])) post) ∧
  fst (dedupRows rows (history, [])) = history ∪ keys_of (queued history rows).
Proof.
  intros Hget Hall stored history rows. split_and!.
  - unfold Scraper.run, bind at 1, Scraper.getExistingEntries. rewrite Hget.
    unfold bind. fold stored. fold history. rewrite forSites_scrapeAll, Hall. done.
  - intros cells r Hin H0 H5 Hq. apply queued_fresh in Hq. apply Hq.
    apply elem_of_list_to_set, list_elem_of_fmap. exists cells.
    by rewrite (sheet_key_of_cells cells r H0 H5).
  - intros pre r post ->. rewrite queued_split. do 2 f_equal.
    apply decide_ext. unfold history. by rewrite elem_of_list_to_set.
  - intros pre r mid r' post -> Ht Hl. by apply queued_later_duplicate.
  - by rewrite dedupRows_keys, keys_of_queued.
Qed.

Lemma getExistingEntries_trace (st : St) :
  ∃ r st', getExistingEntries st = (r, st') ∧ grows_by st st' [SheetsGet].
Proof.
  unfold Scraper.getExistingEntries. destruct (sheets_get (world st)) as [[values|] w];
    by eexists _, _.
Qed.

Lemma appendToSheet_trace (rows : list Row) (st : St) :
  ∃ r st' t,
    appendToSheet rows st = (r, st') ∧
    grows_by st st' (SheetsAppend rows :: t) ∧
    (r = Ok tt -> t = [ConsoleLog (MsgAdded (length rows))]).
Proof.
  unfold Scraper.appendToSheet. destruct (sheets_append rows (world st)) as [[|] w].
  - eexists _, _, [_]. split_and!; [done| |done].
    unfold grows_by. cbn. by rewrite <- app_assoc.
  - by eexists _, _, [].
Qed.

Lemma run_trace (fuel : nat) (sites : list Site) (st : St) :
  ∃ r st' t, run fuel sites st = (r, st') ∧ grows_by st st' (SheetsGet :: t).
Proof.
  unfold Scraper.run, bind.
  destruct (getExistingEntries_trace st) as (r & st1 & -> & Hg).
  destruct r as [existing|e|]; [|by eexists _, _, []..].
  destruct (forSites_trace http_get url_resolve fuel sites (existing, []) st1)
    as (r & st2 & t & -> & Hg2 & _).
  destruct r as [acc|e|];
    [|eexists _, _, _; split; [done|by apply (grows_by_trans _ st1 _ [_])]..].
  destruct (0 <? length acc.2)%nat.
  - destruct (appendToSheet_trace acc.2 st2) as (r & st3 & t3 & -> & Hg3 & _).
    eexists _, _, _. split; [done|].
    apply (grows_by_trans _ st1 _ [_]); [done|]. by eapply grows_by_trans.
  - eexists _, _, _. split; [done|].
    apply (grows_by_trans _ st1 _ [_]); [done|].
    eapply grows_by_trans; [done|apply grows_by_record].
Qed.

(** C5: when either environment variable is absent (or empty) the script
    prints the error and exits with code 1; nothing else has happened: no
    request to a site or to the sheet, and the outside world is untouched,
    whatever the sites and the sheet are. *)
Theorem missing_credentials_exit (fuel : nat) (env : Env) (sites : list Site) (st : St) :
  truthy_opt (SHEET_ID env) = false ∨ truthy_opt (SERVICE_ACCOUNT_JSON env) = false ->
  ∃ st' t,
    main fuel env sites st = (Exited 1, st') ∧
    grows_by st st' t ∧
    t = [ConsoleError MsgMissingCredentials; ProcessExit 1] ∧
    List.filter is_network t = [] ∧
    world st' = world st.
Proof.
  intros Hmissing.
  assert (credentials_present env = false) as Hc.
  { unfold credentials_present. destruct Hmissing as [-> | ->]; [done|apply andb_false_r]. }
  unfold Scraper.main. rewrite Hc. cbn [negb].
  eexists _, _. split_and!; [done| |done..].
  unfold grows_by. cbn. by rewrite <- app_assoc.
Qed.

(** C7, as amended: the append operation has no guard of its own: called
    with an empty list it still sends the append request, with no rows, and
    on success logs that 0 auctions were added.  The guard is in the
    orchestrator: a run whose queue is empty after all sites sends no append
    request and ends by logging that no new auctions were found. *)
Theorem append_guard :
  (∀ st : St,
     ∃ r st' t,
       appendToSheet [] st = (r, st') ∧
       grows_by st st' (SheetsAppend [] :: t) ∧
       (r = Ok tt -> t = [ConsoleLog (MsgAdded 0)])) ∧
  (∀ fuel sites (st st1 st2 : St) existing existing',
     getExistingEntries st = (Ok existing, st1) ->
     forSites fuel sites (existing, []) st1 = (Ok (existing', []), st2) ->
     run fuel sites st = (Ok tt, record (ConsoleLog MsgNoNewAuctions) st2) ∧
     ∃ t, grows_by st st2 t ∧
          List.filter is_append (t ++ [ConsoleLog MsgNoNewAuctions]) = []).
Proof.
  split.
  - intros st. apply (appendToSheet_trace [] st).
  - intros fuel sites st st1 st2 existing existing' Hex Hfor. split.
    + unfold Scraper.run, bind. by rewrite Hex, Hfor.
    + destruct (getExistingEntries_trace st) as (r & st1' & Hex' & Hg).
      rewrite Hex in Hex'. injection Hex' as <- <-.
      destruct (forSites_trace http_get url_resolve fuel sites (existing, []) st1)
        as (r & st2' & t & Hfor' & Hg2 & Hn).
      rewrite Hfor in Hfor'. injection Hfor' as <- <-.
      exists ([SheetsGet] ++ t). split; [by eapply grows_by_trans|].
      rewrite !List.filter_app, Hn. done.
Qed.



End Run.

(** ** The demo run *)

Example demo_walk :
  fst (Demo.scrapeSite 10 Demo.example_site (Demo.start [Demo.header])) =
  Ok [Demo.row1; Demo.row2; Demo.row1_again].
Proof. reflexivity. Qed.

Example demo_run :
  Demo.main 10 Demo.env Demo.SITES (Demo.start [Demo.header]) =
  (Completed,
   {| world := [Demo.header; row_cells Demo.row1; row_cells Demo.row2];
      trace :=
        [SheetsGet;
         ConsoleLog (MsgStarting "Example Auctions");
         ConsoleLog (MsgScrapingPage 1 "https://example.com/auctions");
         HttpGet "https://example.com/auctions";
         ConsoleLog (MsgScrapingPage 2 "https://example.com/page2");
         HttpGet "https://example.com/page2";
         ConsoleLog (MsgScrapingPage 3 "https://example.com/page3");
         HttpGet "https://example.com/page3";
         ConsoleError (MsgErrorOn "https://example.com/page3" NetworkError);
         ConsoleLog (MsgFound 3 "Example Auctions");
         SheetsAppend [Demo.row1; Demo.row2];
         ConsoleLog (MsgAdded 2)] |}).
Proof. by vm_compute. Qed.

Lemma first_occurrence_only_witness :
  let history : gset string := list_to_set (sheet_key <$> [row_cells Demo.row1]) in
  Demo.row1_again ∉ queued history [Demo.row1; Demo.row2; Demo.row1_again].
Proof.
  refine (proj1 (proj2
    (first_occurrence_only Demo.http_get Demo.url_resolve Demo.sheets_get
       Demo.sheets_append 10 Demo.SITES (Demo.start [Demo.header; row_cells Demo.row1]) _
       (Some [Demo.header; row_cells Demo.row1]) [Demo.header; row_cells Demo.row1]
       [[Demo.row1; Demo.row2; Demo.row1_again]] _ _))
    (row_cells Demo.row1) Demo.row1_again _ _ _).
  - reflexivity.
  - reflexivity.
  - apply list_elem_of_here.
  - reflexivity.
  - reflexivity.
Defined.

(** C1, as stated, fails: the first row of the sheet is never part of the
    history.  On a sheet without header row, as the script itself leaves it
    behind on an empty sheet, the record stored in the first row is scraped
    again and appended a second time. *)
Lemma stored_first_row_is_appended_again :
  Demo.main 10 Demo.env Demo.SITES
    (Demo.start [row_cells Demo.row1; row_cells Demo.row2]) =
  (Completed,
   {| world := [row_cells Demo.row1; row_cells Demo.row2; row_cells Demo.row1];
      trace :=
        [SheetsGet;
         ConsoleLog (MsgStarting "Example Auctions");
         ConsoleLog (MsgScrapingPage 1 "https://example.com/auctions");
         HttpGet "https://example.com/auctions";
         ConsoleLog (MsgScrapingPage 2 "https://example.com/page2");
         HttpGet "https://example.com/page2";
         ConsoleLog (MsgScrapingPage 3 "https://example.com/page3");
         HttpGet "https://example.com/page3";
         ConsoleError (MsgErrorOn "https://example.com/page3" NetworkError);
         ConsoleLog (MsgFound 3 "Example Auctions");
         SheetsAppend [Demo.row1];
         ConsoleLog (MsgAdded 1)] |}).
Proof. by vm_compute. Qed.

Lemma demo_resolver_nonempty (rel base href : string) :
  Demo.url_resolve rel base = Some href -> href ≠ "".
Proof.
  unfold Demo.url_resolve, Demo.split_scheme.
  assert (∀ a b c : string, a ≠ "" -> a +:+ b +:+ c ≠ "") as Hne
    by (intros [|x a] b c Ha; done).
  destruct (Demo.strip_prefix "https://" base) as [rest|];
    [|destruct (Demo.strip_prefix "http://" base) as [rest|]; [|done]].
  all: destruct (Demo.split_host rest) as [host path]; destruct (truthy host); [|done].
  all: destruct (Demo.strip_prefix "https://" rel) as [rest'|];
    [|destruct (Demo.strip_prefix "http://" rel) as [rest'|]].
  all: try (destruct (Demo.split_host rest') as [host' path']; destruct (truthy host');
            [|done]; intros [= <-]; by apply Hne).
  all: destruct rel as [|[[] [] [] [] [] [] [] []] rel];
    try (intros [= <-]; by apply Hne).
  all: destruct rel as [|[[] [] [] [] [] [] [] []] rel];
    try (intros [= <-]; by apply Hne).
  all: destruct (Demo.split_host rel) as [host' path']; destruct (truthy host'); [|done].
  all: intros [= <-]; by apply Hne.
Qed.

Lemma pagination_terminates_witness :
  (∃ items st' t,
     Demo.scrapeSite 3 (Demo.endless_site (Some 2)) (Demo.start []) = (Ok items, st') ∧
     grows_by (Demo.start []) st' t ∧ (pages_fetched t <= 2)%nat) ∧
  (∃ items st',
     Demo.scrapeSite 10 Demo.short_site (Demo.start []) = (Ok items, st') ∧
     ∃ batches u p st1 st2 last,
       pages_ok Demo.http_get Demo.url_resolve Demo.short_site "https://short.test" 1
                (record (ConsoleLog (MsgStarting "Short")) (Demo.start []))
                batches u p st1 ∧
       page_stops Demo.http_get Demo.url_resolve Demo.short_site u p st1 st2 last ∧
       items = concat batches ++ last ∧
       st' = record (ConsoleLog (MsgFound (length items) "Short")) st2).
Proof.
  split.
  - apply (proj1 (pagination_terminates Demo.http_get Demo.url_resolve
                    (Demo.endless_site (Some 2)) _ eq_refl) 2 3%nat (Demo.start []) eq_refl);
      [lia | simpl; lia].
  - eexists _, _. split; [reflexivity|].
    apply (proj2 (pagination_terminates Demo.http_get Demo.url_resolve
                    Demo.short_site _ eq_refl) 10%nat (Demo.start []) _ _
                 eq_refl eq_refl demo_resolver_nonempty eq_refl).
Defined.

Lemma page_failure_stops_walk_witness :
  ∃ st',
    Demo.scrapeSite 10 Demo.example_site (Demo.start [Demo.header]) =
    (Ok [Demo.row1; Demo.row2; Demo.row1_again], st').
Proof.
  eexists.
  refine (proj1 (proj2 (page_failure_stops_walk Demo.http_get Demo.url_resolve
    Demo.example_site [[Demo.row1; Demo.row2]; [Demo.row1_again]]
    "https://example.com/page3" 3 (Demo.start [Demo.header]) _ _
    NetworkError 10 _ _ _ _ _))).
  - eapply pages_ok_cons; [reflexivity..|].
    eapply pages_ok_cons; [reflexivity..|].
    apply pages_ok_nil.
  - reflexivity.
  - reflexivity.
  - reflexivity.
  - simpl. lia.
Defined.

Lemma link_resolution_witness :
  Demo.url_resolve "lot/1" (site_url Demo.example_site) = Some (row_link Demo.row1) ∧
  row_link Demo.row2 = site_url Demo.example_site ∧
  row_link Demo.row2 ≠ "".
Proof.
  split.
  - apply (proj1 (link_resolution Demo.http_get Demo.url_resolve Demo.example_site
                    Demo.lot1 Demo.row1 eq_refl) "lot/1" eq_refl). discriminate.
  - destruct (proj2 (link_resolution Demo.http_get Demo.url_resolve Demo.example_site
                       Demo.lot2 Demo.row2 eq_refl) eq_refl) as [Hbase Hne].
    split; [exact Hbase|].
    apply (Hne 10%nat (Demo.start [Demo.header])
               [Demo.row1; Demo.row2; Demo.row1_again] _ eq_refl).
    right. left.
Defined.

Lemma missing_credentials_exit_witness :
  ∃ st' t,
    Demo.main 10 {| SHEET_ID := None; SERVICE_ACCOUNT_JSON := Some "{}" |} Demo.SITES
              (Demo.start [Demo.header]) = (Exited 1, st') ∧
    grows_by (Demo.start [Demo.header]) st' t ∧
    t = [ConsoleError MsgMissingCredentials; ProcessExit 1] ∧
    List.filter is_network t = [] ∧
    world st' = [Demo.header].
Proof.
  apply (missing_credentials_exit Demo.http_get Demo.url_resolve Demo.sheets_get
           Demo.sheets_append Demo.json_parse_ok 10
           {| SHEET_ID := None; SERVICE_ACCOUNT_JSON := Some "{}" |} Demo.SITES
           (Demo.start [Demo.header])).
  left. reflexivity.
Defined.

(** C7, as stated, fails: called with no rows, the append operation sends
    an append request to the sheet and reports 0 added auctions. *)
Lemma append_empty_sends_request :
  Scraper.appendToSheet Demo.sheets_append [] (Demo.start [Demo.header]) =
  (Ok tt, {| world := [Demo.header];
             trace := [SheetsAppend []; ConsoleLog (MsgAdded 0)] |}) ∧
  List.filter is_append
    (trace (snd (Scraper.appendToSheet Demo.sheets_append [] (Demo.start [Demo.header]))))
  ≠ [].
Proof. split; [reflexivity|discriminate]. Qed.

Lemma append_guard_witness :
  ∃ st2,
    Scraper.run Demo.http_get Demo.url_resolve Demo.sheets_get Demo.sheets_append 10
      Demo.SITES (Demo.start [Demo.header; row_cells Demo.row1; row_cells Demo.row2]) =
    (Ok tt, record (ConsoleLog MsgNoNewAuctions) st2).
Proof.
  eexists.
  refine (proj1 (proj2 (append_guard Demo.http_get Demo.url_resolve Demo.sheets_get
    Demo.sheets_append) 10%nat Demo.SITES
    (Demo.start [Demo.header; row_cells Demo.row1; row_cells Demo.row2]) _ _ _ _ _ _));
    reflexivity.
Defined.



(** C9: a descriptor without a [pagination] object does not walk as a
    single-page site.  [scrapePage] reads [site.pagination?.next] and
    tolerates the absence, but the loop condition of [scrapeSite] reads
    [site.pagination.limit] outside of the [try] block: the walk throws a
    TypeError before the first request, and the run ends there, the sites
    after it being never walked.  A [pagination] object whose two fields are
    absent is walked as a single page. *)
Theorem missing_pagination_crashes :
  nextPageOf Demo.url_resolve (Demo.with_pagination None Demo.example_site)
             (Demo.page [Demo.lot1; Demo.lot2] (Some "page2")) 1 = Ok None ∧
  Demo.scrapeSite 10 (Demo.with_pagination None Demo.example_site) (Demo.start []) =
  (Throw TypeError,
   {| world := []; trace := [ConsoleLog (MsgStarting "Example Auctions")] |}) ∧
  Demo.main 10 Demo.env [Demo.with_pagination None Demo.example_site; Demo.short_site]
            (Demo.start [Demo.header]) =
  (Uncaught TypeError,
   {| world := [Demo.header];
      trace := [SheetsGet; ConsoleLog (MsgStarting "Example Auctions")] |}) ∧
  Demo.scrapeSite 10
    (Demo.with_pagination (Some {| pg_next := None; pg_limit := None |}) Demo.example_site)
    (Demo.start []) =
  (Ok [Demo.row1; Demo.row2],
   {| world := [];
      trace := [ConsoleLog (MsgStarting "Example Auctions");
                ConsoleLog (MsgScrapingPage 1 "https://example.com/auctions");
                HttpGet "https://example.com/auctions";
                ConsoleLog (MsgFound 2 "Example Auctions")] |}).
Proof. split_and!; by vm_compute. Qed.
(** * Further properties of the script *)

(** ** Letter case *)

Lemma lower_char_idem (c : ascii) : lower_char (lower_char c) = lower_char c.
Proof. by destruct c as [[] [] [] [] [] [] [] []]. Qed.

Lemma toLowerCase_idem (s : string) : toLowerCase (toLowerCase s) = toLowerCase s.
Proof. induction s as [|c s IH]; [done|]. simpl. by rewrite lower_char_idem, IH. Qed.

Lemma category_text_lower (title location url : string) :
  category_text title location url =
  toLowerCase title +:+ " " +:+ toLowerCase location +:+ " " +:+ toLowerCase url.
Proof. unfold category_text. by rewrite !toLowerCase_app. Qed.

(** X1: category inference ignores letter case in all three inputs: texts
    that agree once lower-cased are given the same category; in particular
    the inputs may be replaced by their lower-case forms. *)
Theorem guessCategory_ignores_case (t l u t' l' u' : string) :
  toLowerCase t = toLowerCase t' ->
  toLowerCase l = toLowerCase l' ->
  toLowerCase u = toLowerCase u' ->
  guessCategory t l u = guessCategory t' l' u' ∧
  guessCategory t l u = guessCategory (toLowerCase t) (toLowerCase l) (toLowerCase u).
Proof.
  intros Ht Hl Hu. unfold guessCategory.
  rewrite !category_text_lower, !toLowerCase_idem, Ht, Hl, Hu. done.
Qed.

Lemma guessCategory_ignores_case_witness :
  guessCategory "ANTIQUE Fair" "Leeds" "HTTPS://Example.com" =
  guessCategory "antique FAIR" "LEEDS" "https://example.COM".
Proof.
  refine (proj1 (guessCategory_ignores_case "ANTIQUE Fair" "Leeds" "HTTPS://Example.com"
                   "antique FAIR" "LEEDS" "https://example.COM" _ _ _)); reflexivity.
Defined.

(** ** The range of the inference *)

Lemma first_group_range (groups : list (list string * string)) (text : string) :
  first_group groups text = "General" ∨ first_group groups text ∈ snd <$> groups.
Proof.
  induction groups as [|[kws cat] rest IH]; [by left|]. simpl.
  destruct (existsb _ kws).
  - right. left.
  - destruct IH as [?|?]; [by left|right; by right].
Qed.

Lemma first_group_general (groups : list (list string * string)) (text : string) :
  "General" ∉ snd <$> groups ->
  first_group groups text = "General" ↔
  ∀ kws cat, (kws, cat) ∈ groups -> existsb (fun kw => includes kw text) kws = false.
Proof.
  induction groups as [|[kws cat] rest IH]; intros Hno.
  - split; [|done]. intros _ kws cat Hin. by apply elem_of_nil in Hin.
  - rewrite fmap_cons, not_elem_of_cons in Hno. destruct Hno as [Hne Hno]. simpl in Hne |- *.
    destruct (existsb _ kws) eqn:E.
    + split; [congruence|]. intros H. specialize (H kws cat (list_elem_of_here _ _)). congruence.
    + rewrite (IH Hno). split.
      * intros H kws' cat' [[= -> ->]|Hin]%elem_of_cons; [done|by eapply H].
      * intros H kws' cat' Hin. eapply H. by right.
Qed.

Lemma guessCategory_in_categories (title location url : string) :
  guessCategory title location url ∈ categories.
Proof.
  rewrite guessCategory_first_group.
  destruct (first_group_range keyword_groups (category_text title location url)) as [->|H].
  - unfold categories. set_solver.
  - unfold categories. cbn in H. set_solver.
Qed.

(** X2: the inferred category is always one of the seven categories, and
    it is "General" exactly when none of the twelve keywords occurs,
    letter case ignored, in the title, the location or the base URL. *)
Theorem guessCategory_range (title location url : string) :
  guessCategory title location url ∈ categories ∧
  (guessCategory title location url = "General" ↔
   ∀ kws cat kw,
     (kws, cat) ∈ keyword_groups -> kw ∈ kws ->
     ¬ contains_ci kw (title +:+ " " +:+ location +:+ " " +:+ url)).
Proof.
  split; [apply guessCategory_in_categories|].
  rewrite guessCategory_first_group.
  - rewrite first_group_general by (cbn; set_solver).
    unfold category_text. split.
    + intros H kws cat kw Hg Hkw Hc.
      assert (existsb (fun kw => includes kw (toLowerCase
                (title +:+ " " +:+ location +:+ " " +:+ url))) kws = true) as E
        by (apply existsb_includes; eauto).
      rewrite (H kws cat Hg) in E. done.
    + intros H kws cat Hg. apply not_true_is_false. intros E.
      apply existsb_includes in E as (kw & Hkw & Hc). by eapply H.
Qed.

(** ** White space *)

Lemma is_whitespace_spec (w : string) : is_whitespace w = true ↔ w ∈ whitespace.
Proof. unfold is_whitespace. apply bool_decide_eq_true. Qed.

(** A white space takes one, two or three bytes, and none is the start of
    another. *)
Lemma whitespace_shape (w : string) :
  w ∈ whitespace ->
  (∃ a, w = String a "") ∨
  (∃ a b, w = String a (String b "") ∧ is_whitespace (String a "") = false) ∨
  (∃ a b c, w = String a (String b (String c "")) ∧
            is_whitespace (String a "") = false ∧
            is_whitespace (String a (String b "")) = false).
Proof.
  unfold whitespace. cbn [fmap list_fmap]. intros H.
  repeat (apply elem_of_cons in H as [->|H]);
    [..|by apply elem_of_nil in H];
    first [ left; eexists; reflexivity
          | right; left; eexists _, _; split; [reflexivity|by vm_compute]
          | right; right; eexists _, _, _; split_and!; [reflexivity|by vm_compute..] ].
Qed.

Lemma whitespace_nonempty (w : string) : w ∈ whitespace -> w ≠ "".
Proof.
  intros [(a & ->)|[(a & b & -> & _)|(a & b & c & -> & _)]]%whitespace_shape; done.
Qed.

Lemma trimStart_whitespace (w s : string) :
  w ∈ whitespace -> trimStart (w +:+ s) = trimStart s.
Proof.
  intros Hw. pose proof (proj2 (is_whitespace_spec w) Hw) as Ht.
  destruct (whitespace_shape w Hw) as [(a & ->)|[(a & b & -> & H1)|(a & b & c & -> & H1 & H2)]];
    rewrite ?app_cons, ?app_empty_l; cbn [trimStart].
  - by rewrite Ht.
  - by rewrite H1, Ht.
  - by rewrite H1, H2, Ht.
Qed.

Lemma whitespace_prefix (w rest s : string) :
  w ∈ whitespace ->
  s = w +:+ rest ->
  match s with
  | EmptyString => False
  | String a s1 =>
      is_whitespace (String a "") = true ∨
      match s1 with
      | EmptyString => False
      | String b s2 =>
          is_whitespace (String a (String b "")) = true ∨
          match s2 with
          | EmptyString => False
          | String c _ => is_whitespace (String a (String b (String c ""))) = true
          end
      end
  end.
Proof.
  intros Hw ->. pose proof (proj2 (is_whitespace_spec w) Hw) as Ht.
  destruct (whitespace_shape w Hw) as [(a & ->)|[(a & b & -> & _)|(a & b & c & -> & _)]];
    rewrite ?app_cons, ?app_empty_l; auto.
Qed.

(** One step of [trimStart]: it drops a leading white space, or there is
    none and the text is left as it is. *)
Lemma trimStart_cases (s : string) :
  (∃ w rest, w ∈ whitespace ∧ s = w +:+ rest ∧ trimStart s = trimStart rest) ∨
  (trimStart s = s ∧ ∀ w rest, w ∈ whitespace -> s ≠ w +:+ rest).
Proof.
  assert (∀ w rest, is_whitespace w = true -> s = w +:+ rest ->
            ∃ w' rest', w' ∈ whitespace ∧ s = w' +:+ rest' ∧
                        trimStart s = trimStart rest') as Hleft.
  { intros w rest Hw%is_whitespace_spec ->. exists w, rest.
    split_and!; [done..|]. by apply trimStart_whitespace. }
  destruct s as [|a s1].
  { right. split; [done|]. intros w rest Hw Hs. by apply (whitespace_prefix w rest "" Hw). }
  destruct (is_whitespace (String a "")) eqn:E1; [left; by apply (Hleft _ s1 E1)|].
  destruct s1 as [|b s2].
  { right. split; [cbn [trimStart]; by rewrite E1|]. intros w rest Hw Hs.
    pose proof (whitespace_prefix w rest _ Hw Hs) as [H|[]]. congruence. }
  destruct (is_whitespace (String a (String b ""))) eqn:E2; [left; by apply (Hleft _ s2 E2)|].
  destruct s2 as [|c s3].
  { right. split; [cbn [trimStart]; by rewrite E1, E2|]. intros w rest Hw Hs.
    pose proof (whitespace_prefix w rest _ Hw Hs) as [H|[H|[]]]; congruence. }
  destruct (is_whitespace (String a (String b (String c "")))) eqn:E3;
    [left; by apply (Hleft _ s3 E3)|].
  right. split; [cbn [trimStart]; by rewrite E1, E2, E3|]. intros w rest Hw Hs.
  pose proof (whitespace_prefix w rest _ Hw Hs) as [H|[H|H]]; congruence.
Qed.

Lemma length_app_str (a b : string) :
  String.length (a +:+ b) = (String.length a + String.length b)%nat.
Proof. induction a as [|c a IH]; [done|]. rewrite app_cons. simpl. by rewrite IH. Qed.

Lemma Blank_app (a b : string) : Blank a -> Blank b -> Blank (a +:+ b).
Proof.
  induction 1 as [|w s Hw _ IH]; intros Hb; [done|].
  rewrite app_assoc_str. constructor; [done|by apply IH].
Qed.

Lemma Blank_whitespace (w : string) : w ∈ whitespace -> Blank w.
Proof. intros Hw. rewrite <- (app_empty_r w). constructor; [done|constructor]. Qed.

(** [trimStart] removes a blank prefix, and what is left does not start
    with a white space. *)
Lemma trimStart_split (s : string) :
  ∃ pre, Blank pre ∧ s = pre +:+ trimStart s ∧
         ∀ w rest, w ∈ whitespace -> trimStart s ≠ w +:+ rest.
Proof.
  remember (String.length s) as n eqn:Hn. revert s Hn.
  induction n as [n IH] using lt_wf_ind. intros s Hn.
  destruct (trimStart_cases s) as [(w & rest & Hw & -> & Ht)|[Ht Hno]].
  - destruct (IH (String.length rest)) with (s := rest) as (pre & Hpre & Hrest & Hhead);
      [|done|].
    { subst n. rewrite length_app_str.
      pose proof (whitespace_nonempty w Hw). destruct w; [done|simpl; lia]. }
    exists (w +:+ pre). rewrite Ht. split_and!; [by constructor| |done].
    by rewrite app_assoc_str, <- Hrest.
  - exists "". rewrite Ht. split_and!; [constructor|done..].
Qed.

Lemma trimStart_Blank (s : string) : Blank s -> trimStart s = "".
Proof. induction 1 as [|w s Hw _ IH]; [done|]. by rewrite trimStart_whitespace. Qed.

Lemma blank_Blank (s : string) : blank s = true ↔ Blank s.
Proof.
  unfold blank. split.
  - destruct (trimStart_split s) as (pre & Hpre & Hs & _).
    destruct (trimStart s); [|done]. intros _. rewrite Hs, app_empty_r. done.
  - intros H. by rewrite (trimStart_Blank s H).
Qed.

(** [trimEnd] removes a blank suffix. *)
Lemma trimEnd_split (s : string) : ∃ suf, Blank suf ∧ s = trimEnd s +:+ suf.
Proof.
  induction s as [|c s (suf & Hsuf & IH)]; [exists ""; split; [constructor|done]|].
  cbn [trimEnd]. destruct (blank (String c s)) eqn:E.
  - exists (String c s). split; [by apply blank_Blank|done].
  - exists suf. split; [done|]. by rewrite app_cons, <- IH.
Qed.

Lemma trimEnd_tail (s : string) :
  ∀ w rest, w ∈ whitespace -> trimEnd s ≠ rest +:+ w.
Proof.
  induction s as [|c s IH]; intros w rest Hw; cbn [trimEnd].
  - intros H. pose proof (whitespace_nonempty w Hw). by destruct rest, w.
  - destruct (blank (String c s)) eqn:E.
    + intros H. pose proof (whitespace_nonempty w Hw). by destruct rest, w.
    + destruct rest as [|d rest].
      * rewrite app_empty_l. intros H.
        destruct (trimEnd_split s) as (suf & Hsuf & Hs).
        assert (Blank (String c s)) as Hb.
        { rewrite Hs, <- app_cons, H. by constructor. }
        apply blank_Blank in Hb. congruence.
      * rewrite app_cons. intros [= _ H]. by eapply IH.
Qed.

Lemma trimEnd_head (s : string) :
  (∀ w rest, w ∈ whitespace -> s ≠ w +:+ rest) ->
  ∀ w rest, w ∈ whitespace -> trimEnd s ≠ w +:+ rest.
Proof.
  intros Hno w rest Hw H. destruct (trimEnd_split s) as (suf & _ & Hs).
  apply (Hno w (rest +:+ suf) Hw). by rewrite Hs, H, app_assoc_str.
Qed.

Lemma Blank_last (s : string) :
  Blank s -> s = "" ∨ ∃ pre w, w ∈ whitespace ∧ s = pre +:+ w.
Proof.
  induction 1 as [|w s Hw _ [->|(pre & w' & Hw' & ->)]]; [by left|right..].
  - exists "", w. by rewrite app_empty_r.
  - exists (w +:+ pre), w'. by rewrite app_assoc_str.
Qed.

Lemma trimStart_fixed (s : string) :
  (∀ w rest, w ∈ whitespace -> s ≠ w +:+ rest) -> trimStart s = s.
Proof.
  intros Hno. destruct (trimStart_cases s) as [(w & rest & Hw & Hs & _)|[Ht _]]; [|done].
  by destruct (Hno w rest Hw).
Qed.

Lemma trimEnd_fixed (s : string) :
  (∀ w rest, w ∈ whitespace -> s ≠ rest +:+ w) -> trimEnd s = s.
Proof.
  intros Hno. destruct (trimEnd_split s) as (suf & Hsuf & Hs).
  destruct (Blank_last suf Hsuf) as [->|(pre & w & Hw & ->)].
  - by rewrite app_empty_r in Hs.
  - destruct (Hno w (trimEnd s +:+ pre) Hw). by rewrite app_assoc_str.
Qed.

(** What [trim] returns neither starts nor ends with a white space, and
    trimming it again changes nothing. *)
Lemma trim_trimmed (s : string) : trimmed (trim s) ∧ trim (trim s) = trim s.
Proof.
  destruct (trimStart_split s) as (_ & _ & _ & Hhead).
  assert (trimmed (trim s)) as Ht.
  { intros w rest Hw. split; [by apply trimEnd_head|by apply trimEnd_tail]. }
  split; [done|]. unfold trim at 1.
  rewrite (trimStart_fixed (trim s)) by (intros w rest Hw; apply (Ht w rest Hw)).
  apply trimEnd_fixed. intros w rest Hw. apply (Ht w rest Hw).
Qed.

Lemma trim_blank (s : string) : trim s = "" ↔ Blank s.
Proof.
  unfold trim. split.
  - intros H. destruct (trimEnd_split (trimStart s)) as (suf & Hsuf & Hs).
    rewrite H, app_empty_l in Hs.
    destruct (trimStart_split s) as (pre & Hpre & Hsplit & _).
    rewrite Hsplit, Hs. by apply Blank_app.
  - intros H. by rewrite (trimStart_Blank s H).
Qed.

(** ** Trimmed fields *)

(** X3: the category of a row is the trimmed text of the category selector
    whenever that text is not blank; a text made of white space only (of
    any white space of the language, the no-break space included) counts as
    absent and the category is inferred; either way no row has an empty
    category. *)
Theorem category_never_empty (url_resolve : string -> string -> option string)
    (site : Site) (el : Element) (r : Row) :
  scrapeItem url_resolve site el = Ok r ->
  let text := find_text el (sel_category (site_selectors site)) in
  (¬ Blank text -> row_category r = trim text) ∧
  (Blank text ->
   row_category r = guessCategory (row_title r) (row_location r) (site_url site)) ∧
  row_category r ≠ "".
Proof.
  intros Hrow text. pose proof (scrapeItem_category _ _ _ _ Hrow) as Hcat.
  fold text in Hcat.
  assert (Blank text ->
          row_category r = guessCategory (row_title r) (row_location r) (site_url site))
    as Hinfer.
  { intros Hb. apply trim_blank in Hb. by rewrite Hcat, Hb. }
  assert (¬ Blank text -> row_category r = trim text) as Hverb.
  { intros Hb. rewrite Hcat. unfold or_else.
    destruct (trim text) eqn:E; [|done]. by apply trim_blank in E. }
  split_and!; [done..|].
  destruct (decide (trim text = "")) as [E|E].
  - rewrite Hinfer by by apply trim_blank. intros Hempty.
    pose proof (guessCategory_in_categories (row_title r) (row_location r) (site_url site))
      as Hrange.
    rewrite Hempty in Hrange. unfold categories in Hrange. set_solver.
  - rewrite Hverb; [done|]. by intros Hb%trim_blank.
Qed.

Lemma category_never_empty_witness :
  find_text Demo.lot7 (Some ".auction-category") = Demo.nbsp ∧
  row_category Demo.row7 = guessCategory "Lot 7" "Hull" "https://example.com/auctions" ∧
  row_category Demo.row1_again = "Vintage".
Proof.
  split_and!.
  - reflexivity.
  - refine (proj1 (proj2 (category_never_empty Demo.url_resolve Demo.example_site
                            Demo.lot7 Demo.row7 _)) _); [reflexivity|].
    apply Blank_whitespace. by apply is_whitespace_spec.
  - refine (proj1 (category_never_empty Demo.url_resolve Demo.example_site
                     Demo.lot1_again Demo.row1_again _) _); [reflexivity|].
    intros Hb%trim_blank. discriminate Hb.
Defined.

(** X4: the title, date, location and description of a row are the
    trimmed texts of their selectors: none of them starts or ends with a
    white space of the language, and trimming them again changes nothing. *)
Theorem fields_are_trimmed (url_resolve : string -> string -> option string)
    (site : Site) (el : Element) (r : Row) :
  scrapeItem url_resolve site el = Ok r ->
  Forall (fun field => trimmed field ∧ trim field = field)
         [row_title r; row_date r; row_location r; row_description r] ∧
  row_title r = trim (find_text el (sel_title (site_selectors site))).
Proof.
  intros Hrow. destruct (scrapeItem_fields _ _ _ _ Hrow) as (Ht & Hd & Hl & Hs).
  split; [|done]. rewrite Ht, Hd, Hl, Hs.
  do 4 (constructor; [apply trim_trimmed|]). constructor.
Qed.

Lemma fields_are_trimmed_witness :
  find_text Demo.lot7 (Some ".auction-title") = Demo.nbsp +:+ "Lot 7" +:+ Demo.nbsp ∧
  row_title Demo.row7 = trim (Demo.nbsp +:+ "Lot 7" +:+ Demo.nbsp) ∧
  trim (row_title Demo.row7) = row_title Demo.row7.
Proof.
  pose proof (fields_are_trimmed Demo.url_resolve Demo.example_site Demo.lot7 Demo.row7
                eq_refl) as [Hall Htitle].
  split_and!; [reflexivity|exact Htitle|].
  apply Forall_cons in Hall as [[_ Hfix] _]. exact Hfix.
Defined.

(** ** The queue *)

Lemma queued_sublist (rows : list Row) (existing : gset string) :
  sublist (queued existing rows) rows.
Proof.
  revert existing. induction rows as [|x rows IH]; intros existing.
  - rewrite queued_nil. constructor.
  - rewrite queued_cons. case_decide.
    + by apply sublist_cons.
    + by apply sublist_skip.
Qed.

Lemma queued_NoDup (rows : list Row) (existing : gset string) :
  NoDup (row_key <$> queued existing rows).
Proof.
  revert existing. induction rows as [|x rows IH]; intros existing.
  - rewrite queued_nil. constructor.
  - rewrite queued_cons. case_decide; [apply IH|].
    rewrite fmap_cons. constructor; [|apply IH].
    intros (r & Hk & Hr)%list_elem_of_fmap. apply queued_fresh in Hr. set_solver.
Qed.

Lemma queued_all_known (rows : list Row) (existing : gset string) :
  keys_of rows ⊆ existing -> queued existing rows = [].
Proof.
  revert existing. induction rows as [|x rows IH]; intros existing Hsub; [done|].
  change (x :: rows) with ([x] ++ rows) in Hsub.
  rewrite keys_of_app, keys_of_singleton in Hsub.
  rewrite queued_cons, decide_True by set_solver. apply IH. set_solver.
Qed.

(** X5: the queue built from any rows and any key set keeps the order of
    the rows, holds no two rows with the same key and no row whose key was
    already known, and leaves out no new key: the key of every row is
    either known already or the key of a queued row. *)
Theorem queue_invariants (existing : gset string) (rows : list Row) :
  sublist (queued existing rows) rows ∧
  NoDup (row_key <$> queued existing rows) ∧
  (∀ r, r ∈ queued existing rows -> row_key r ∉ existing) ∧
  (∀ r, r ∈ rows -> row_key r ∈ existing ∨ row_key r ∈ row_key <$> queued existing rows).
Proof.
  split_and!.
  - apply queued_sublist.
  - apply queued_NoDup.
  - intros r. apply queued_fresh.
  - intros r Hr. pose proof (keys_of_queued rows existing) as Heq.
    assert (row_key r ∈ existing ∪ keys_of rows) as Hin.
    { apply elem_of_union_r, elem_of_keys_of, list_elem_of_fmap. eauto. }
    rewrite <- Heq in Hin. apply elem_of_union in Hin as [?|Hq]; [by left|].
    right. by apply elem_of_keys_of.
Qed.

(** ** Keys without the separator *)

Lemma includes_bar_cons (c : ascii) (s : string) :
  includes "|" (String c s) = false -> c ≠ "|"%char ∧ includes "|" s = false.
Proof.
  cbn [includes startsWith]. intros [H1 H2]%orb_false_iff. split; [|done].
  intros ->. by rewrite decide_True in H1.
Qed.

Lemma key_injective (t1 t2 l1 l2 : string) :
  includes "|" t1 = false ->
  includes "|" t2 = false ->
  t1 +:+ "|" +:+ l1 = t2 +:+ "|" +:+ l2 ->
  t1 = t2 ∧ l1 = l2.
Proof.
  revert t2. induction t1 as [|a t1 IH]; intros [|b t2] H1 H2 Heq.
  - rewrite !app_empty_l in Heq. by injection Heq.
  - apply includes_bar_cons in H2 as [Hb _]. rewrite app_empty_l, app_cons in Heq.
    injection Heq as Hab _. by destruct Hb.
  - apply includes_bar_cons in H1 as [Ha _]. rewrite app_empty_l, app_cons in Heq.
    injection Heq as Hab _. by destruct Ha.
  - apply includes_bar_cons in H1 as [_ H1]. apply includes_bar_cons in H2 as [_ H2].
    rewrite !app_cons in Heq. injection Heq as -> Heq.
    destruct (IH _ H1 H2 Heq) as [-> ->]. done.
Qed.

(** X6: two rows whose titles hold no "|" have the same dedup key only if
    they have the same title and the same link: away from the separator the
    key tells auctions apart exactly by title and link. *)
Theorem key_injective_without_separator (r1 r2 : Row) :
  includes "|" (row_title r1) = false ->
  includes "|" (row_title r2) = false ->
  row_key r1 = row_key r2 ->
  row_title r1 = row_title r2 ∧ row_link r1 = row_link r2.
Proof. intros H1 H2 Hk. by eapply key_injective. Qed.

Lemma key_injective_without_separator_witness :
  row_title Demo.row1 = row_title Demo.row1_again ∧
  row_link Demo.row1 = row_link Demo.row1_again.
Proof.
  apply (key_injective_without_separator Demo.row1 Demo.row1_again); reflexivity.
Defined.

(** ** From one run to the next *)

Lemma keys_of_values_stored (hdr : list string) (stored : list (list string)) :
  keys_of_values (Some (hdr :: stored)) = list_to_set (sheet_key <$> stored).
Proof. reflexivity. Qed.

Lemma keys_of_cells (rows : list Row) :
  list_to_set (sheet_key <$> (row_cells <$> rows)) = keys_of rows.
Proof.
  unfold keys_of. f_equal. rewrite <- list_fmap_compose.
  apply list_fmap_ext. intros _ r _. apply sheet_key_row_cells.
Qed.

(** X7: on a sheet that has a header row, appending the queue of a run
    makes the next run queue nothing for the same rows: whatever the sheet
    held, once it holds the rows queued from [rows], every row of [rows] is
    known. *)
Theorem rerun_queues_nothing (hdr : list string) (stored : list (list string))
    (rows : list Row) :
  let existing := keys_of_values (Some (hdr :: stored)) in
  let appended := row_cells <$> queued existing rows in
  queued (keys_of_values (Some ((hdr :: stored) ++ appended))) rows = [].
Proof.
  intros existing appended. apply queued_all_known.
  change ((hdr :: stored) ++ appended) with (hdr :: (stored ++ appended)).
  rewrite keys_of_values_stored, fmap_app, list_to_set_app_L.
  unfold appended. rewrite keys_of_cells.
  fold (keys_of_values (Some (hdr :: stored))). fold existing.
  rewrite keys_of_queued. set_solver.
Qed.

(** X8: on an empty sheet the first appended row takes the place of the
    header: the next run skips it when it loads the keys, so for the same
    rows it queues the first row once more, and only that row. *)
Theorem first_row_taken_for_header (r : Row) (rest : list Row) :
  keys_of_values None = ∅ ∧
  keys_of_values (Some []) = ∅ ∧
  let appended := row_cells <$> queued ∅ (r :: rest) in
  queued (keys_of_values (Some appended)) (r :: rest) = [r].
Proof.
  split_and!; [reflexivity..|]. intros appended. unfold appended.
  assert (queued ∅ (r :: rest) = r :: queued ({[row_key r]} ∪ ∅) rest) as ->.
  { rewrite queued_cons. apply decide_False, not_elem_of_empty. }
  rewrite fmap_cons, keys_of_values_stored, keys_of_cells.
  set (q := queued ({[row_key r]} ∪ ∅) rest).
  rewrite queued_cons, decide_False.
  - f_equal. apply queued_all_known.
    pose proof (keys_of_queued rest ({[row_key r]} ∪ ∅)) as Heq. fold q in Heq. set_solver.
  - intros Hin. apply elem_of_keys_of, list_elem_of_fmap in Hin as (x & Hk & Hx).
    apply queued_fresh in Hx. set_solver.
Qed.

(** ** Pages *)

Lemma requested_app (t1 t2 : list Event) :
  requested (t1 ++ t2) = requested t1 ++ requested t2.
Proof.
  induction t1 as [|e t1 IH]; [done|]. destruct e; simpl; by rewrite ?IH.
Qed.

Lemma announced_app (t1 t2 : list Event) :
  announced (t1 ++ t2) = announced t1 ++ announced t2.
Proof.
  induction t1 as [|e t1 IH]; [done|].
  destruct e as [[]|[]| | | |]; simpl; by rewrite ?IH.
Qed.

Section Pages.

Context {World : Type}.
Local Abbreviation St := (Scraper.St World).
Variable http_get : string -> World -> option Document * World.
Variable url_resolve : string -> string -> option string.

Local Abbreviation scrapeItem := (Scraper.scrapeItem url_resolve).
Local Abbreviation scrapeItems := (Scraper.scrapeItems url_resolve).
Local Abbreviation nextPageOf := (Scraper.nextPageOf url_resolve).
Local Abbreviation scrapePage := (Scraper.scrapePage http_get url_resolve).
Local Abbreviation walk := (Scraper.walk http_get url_resolve).
Local Abbreviation scrapeSite := (Scraper.scrapeSite http_get url_resolve).

Lemma scrapeItem_throws (site : Site) (el : Element) (e : Exn) :
  scrapeItem site el = Throw e -> e = InvalidURL.
Proof.
  unfold Scraper.scrapeItem.
  destruct (find_href el _) as [rel|]; [|done].
  destruct (truthy rel); [|done].
  unfold Scraper.new_URL. destruct (url_resolve rel (site_url site)); [done|].
  by intros [= <-].
Qed.

Lemma scrapeItems_rows (site : Site) (els : list Element) (rs : list Row) :
  scrapeItems site els = Ok rs ->
  Forall2 (fun el r => scrapeItem site el = Ok r) els rs.
Proof.
  revert rs. induction els as [|el els IH]; intros rs; simpl.
  - intros [= <-]. constructor.
  - destruct (scrapeItem site el) as [r|e|] eqn:E; [|done..].
    destruct (scrapeItems site els) as [rs'|e|]; [|done..].
    intros [= <-]. constructor; [done|by apply IH].
Qed.

Lemma scrapeItems_fails (site : Site) (els : list Element) (el : Element) (e : Exn) :
  el ∈ els -> scrapeItem site el = Throw e -> scrapeItems site els = Throw InvalidURL.
Proof.
  intros Hin Hthrow. induction els as [|x els IH]; [by apply elem_of_nil in Hin|].
  simpl. destruct (scrapeItem site x) as [r|e'|] eqn:E.
  - apply elem_of_cons in Hin as [->|Hin]; [congruence|]. by rewrite (IH Hin).
  - by rewrite (scrapeItem_throws _ _ _ E).
  - by destruct (scrapeItem_fuel url_resolve site x).
Qed.

(** X9: a page that loads gives one row per element matched by the item
    selector, in document order; but a single element whose href the URL
    resolver refuses makes the whole page fail with that error, the rows of
    its other elements included. *)
Theorem page_rows_all_or_nothing (site : Site) (u : string) (p : Z) (st : St)
    (doc : Document) (w : World) :
  http_get u (world st) = (Some doc, w) ->
  let els := query doc (sel_item (site_selectors site)) in
  (∀ items np st',
     scrapePage site u p st = (Ok (items, np), st') ->
     Forall2 (fun el r => scrapeItem site el = Ok r) els items) ∧
  (∀ el e,
     el ∈ els -> scrapeItem site el = Throw e ->
     ∃ st', scrapePage site u p st = (Throw InvalidURL, st')).
Proof.
  intros Hget els. unfold Scraper.scrapePage, bind, emit, axios_get, lift, ret.
  cbn [record world trace]. rewrite Hget. fold els. split.
  - intros items np st'.
    destruct (scrapeItems site els) as [rs|e|] eqn:E; [|done..].
    destruct (nextPageOf site doc p); [|done..].
    intros [= <- _ _]. by apply scrapeItems_rows.
  - intros el e Hin Hthrow. rewrite (scrapeItems_fails _ _ _ _ Hin Hthrow). eauto.
Qed.

(** X10: with a non-zero limit, a page whose number has reached the limit
    reports no next page: the href of the next selector is not even
    resolved, so it cannot make the page fail. *)
Theorem last_page_has_no_next (site : Site) (pg : Pagination) (N page : Z)
    (doc : Document) :
  site_pagination site = Some pg ->
  pg_limit pg = Some N ->
  N ≠ 0 ->
  N <= page ->
  nextPageOf site doc page = Ok None ∧
  (∀ u (st : St) w items,
     http_get u (world st) = (Some doc, w) ->
     scrapeItems site (query doc (sel_item (site_selectors site))) = Ok items ->
     scrapePage site u page st =
     (Ok (items, None),
      {| world := w;
         trace := trace st ++ [ConsoleLog (MsgScrapingPage page u); HttpGet u] |})).
Proof.
  intros Hpg HN Hne Hle.
  assert (nextPageOf site doc page = Ok None) as Hnext.
  { unfold Scraper.nextPageOf. rewrite Hpg, HN.
    destruct (pg_next pg) as [sel|]; [|done].
    destruct (truthy sel); [|done].
    destruct (query_href doc sel) as [next|]; [|done].
    cbn [js_not_num js_lt].
    replace (N =? 0) with false by lia. replace (page <? N) with false by lia.
    by rewrite andb_false_r. }
  split; [done|]. intros u st w items Hget Hitems.
  unfold Scraper.scrapePage, bind, emit, axios_get, lift, ret.
  cbn [record world trace]. rewrite Hget, Hitems, Hnext. by rewrite <- app_assoc.
Qed.

Lemma scrapeItems_set_limit (limit : option Z) (site : Site) (els : list Element) :
  scrapeItems (set_limit limit site) els = scrapeItems site els.
Proof.
  induction els as [|el els IH]; [done|]. simpl. rewrite IH.
  by change (scrapeItem (set_limit limit site) el) with (scrapeItem site el).
Qed.

Lemma nextPageOf_unlimited (site : Site) (pg : Pagination) (doc : Document) (p : Z) :
  site_pagination site = Some pg ->
  js_not_num (pg_limit pg) = true ->
  nextPageOf (set_limit None site) doc p = nextPageOf site doc p.
Proof.
  intros Hpg Hlim. unfold Scraper.nextPageOf, set_limit. cbn.
  rewrite Hpg. cbn. destruct (pg_next pg) as [sel|]; [|done].
  destruct (truthy sel); [|done].
  destruct (query_href doc sel) as [next|]; [|done].
  by rewrite Hlim.
Qed.

Lemma scrapePage_unlimited (site : Site) (pg : Pagination) (u : string) (p : Z) (st : St) :
  site_pagination site = Some pg ->
  js_not_num (pg_limit pg) = true ->
  scrapePage (set_limit None site) u p st = scrapePage site u p st.
Proof.
  intros Hpg Hlim. unfold Scraper.scrapePage, bind, emit, axios_get, lift, ret.
  cbn [record world trace].
  destruct (http_get u (world st)) as [[doc|] w]; [|done].
  change (site_selectors (set_limit None site)) with (site_selectors site).
  rewrite scrapeItems_set_limit.
  destruct (scrapeItems site _); [|done..].
  by rewrite (nextPageOf_unlimited _ _ _ _ Hpg Hlim).
Qed.

Lemma walk_unlimited (site : Site) (pg : Pagination) :
  site_pagination site = Some pg ->
  js_not_num (pg_limit pg) = true ->
  ∀ fuel pageUrl p acc (st : St),
    walk fuel (set_limit None site) pageUrl p acc st = walk fuel site pageUrl p acc st.
Proof.
  intros Hpg Hlim. induction fuel as [|fuel IH]; intros pageUrl p acc st; [done|].
  cbn [Scraper.walk]. destruct pageUrl as [u|]; [|done]. destruct (truthy u); [|done].
  assert (limit_allows (set_limit None site) p = Ok true) as ->.
  { unfold limit_allows, set_limit. cbn. by rewrite Hpg. }
  assert (limit_allows site p = Ok true) as ->.
  { unfold limit_allows. by rewrite Hpg, Hlim. }
  rewrite (scrapePage_unlimited _ _ _ _ _ Hpg Hlim).
  destruct (scrapePage site u p st) as [[[items np]|e|] st1]; [|done..].
  apply IH.
Qed.

(** X11: a page limit of 0 is no limit: a descriptor with [limit: 0] is
    walked exactly as the same descriptor with no limit, with the same rows,
    the same requests and the same console output. *)
Theorem zero_limit_is_unbounded (site : Site) (pg : Pagination) (fuel : nat) (st : St) :
  site_pagination site = Some pg ->
  pg_limit pg = Some 0 ->
  scrapeSite fuel site st = scrapeSite fuel (set_limit None site) st.
Proof.
  intros Hpg Hlim.
  assert (js_not_num (pg_limit pg) = true) as Hnot by by rewrite Hlim.
  rewrite !scrapeSite_unfold.
  change (site_url (set_limit None site)) with (site_url site).
  change (site_name (set_limit None site)) with (site_name site).
  by rewrite (walk_unlimited _ _ Hpg Hnot).
Qed.

(** X12: a site with an empty start URL, or with a negative page limit, is
    walked without a single request: the walk returns no rows and logs a
    count of 0; with an empty start URL this holds even for a descriptor
    without [pagination] object. *)
Theorem walk_without_requests (site : Site) (fuel : nat) (st : St) :
  site_url site = "" ∨
  (∃ pg N, site_pagination site = Some pg ∧ pg_limit pg = Some N ∧ N < 0) ->
  scrapeSite (S fuel) site st =
  (Ok [],
   {| world := world st;
      trace := trace st ++ [ConsoleLog (MsgStarting (site_name site));
                            ConsoleLog (MsgFound 0 (site_name site))] |}).
Proof.
  intros Hcase. rewrite scrapeSite_unfold. cbn [Scraper.walk].
  assert (∀ s : St,
            record (ConsoleLog (MsgFound 0 (site_name site)))
                   (record (ConsoleLog (MsgStarting (site_name site))) s) =
            {| world := world s;
               trace := trace s ++ [ConsoleLog (MsgStarting (site_name site));
                                    ConsoleLog (MsgFound 0 (site_name site))] |}) as Hst.
  { intros s. unfold record. cbn. by rewrite <- app_assoc. }
  destruct Hcase as [-> | (pg & N & Hpg & HN & Hneg)].
  - cbn. unfold ret. by rewrite Hst.
  - destruct (truthy (site_url site)); [|unfold ret; by rewrite Hst].
    unfold limit_allows. rewrite Hpg, HN. cbn [js_not_num js_le].
    replace (N =? 0) with false by lia. replace (1 <=? N) with false by lia.
    cbn. by rewrite Hst.
Qed.

End Pages.

(** ** Requests *)

Section Requests.

Context {World : Type}.
Local Abbreviation St := (Scraper.St World).
Variable http_get : string -> World -> option Document * World.
Variable url_resolve : string -> string -> option string.

Local Abbreviation scrapePage := (Scraper.scrapePage http_get url_resolve).
Local Abbreviation walk := (Scraper.walk http_get url_resolve).
Local Abbreviation scrapeSite := (Scraper.scrapeSite http_get url_resolve).
Local Abbreviation forSites := (Scraper.forSites http_get url_resolve).
Local Abbreviation reachable := (reachable_url url_resolve).

Lemma numbered_cons (p : Z) (u : string) (urls : list string) :
  numbered p (u :: urls) = (p, u) :: numbered (p + 1) urls.
Proof.
  unfold numbered. rewrite imap_cons. f_equal; [f_equal; lia|].
  apply imap_ext. intros i x _. cbn. f_equal. lia.
Qed.

(** What a walk adds to the trace, from the page it is about to examine. *)
Lemma walk_requests (site : Site) (fuel : nat) :
  ∀ pageUrl p acc (st : St),
    (∀ u, pageUrl = Some u -> reachable site u) ->
    ∃ r st' t,
      walk fuel site pageUrl p acc st = (r, st') ∧
      grows_by st st' t ∧
      Forall (fun e => is_walk_event e = true) t ∧
      Forall (reachable site) (requested t) ∧
      announced t = numbered p (requested t).
Proof.
  induction fuel as [|fuel IH]; intros pageUrl p acc st Hurl.
  { exists OutOfFuel, st, []. split_and!; [done|apply grows_by_refl|done..]. }
  cbn [Scraper.walk].
  destruct pageUrl as [u|];
    [|exists (Ok acc), st, []; split_and!; [done|apply grows_by_refl|done..]].
  destruct (truthy u);
    [|exists (Ok acc), st, []; split_and!; [done|apply grows_by_refl|done..]].
  destruct (limit_allows site p) as [[|]|e|];
    try (eexists _, st, []; split_and!; [done|apply grows_by_refl|done..]).
  destruct (scrapePage_shape http_get url_resolve site u p st) as (r & st1 & Hp & Hr & Hg).
  rewrite Hp. destruct r as [[items np]|e|]; [| |done].
  - destruct (IH np (p + 1) (acc ++ items) st1) as (r & st' & t & -> & Hg' & He & Hreq & Hann).
    { intros next ->. right. eapply scrapePage_next, Hp. }
    exists r, st', ([ConsoleLog (MsgScrapingPage p u); HttpGet u] ++ t).
    split_and!; [done|by eapply grows_by_trans| | |].
    + by repeat constructor.
    + cbn [app requested]. constructor; [by apply Hurl|done].
    + cbn [app requested announced]. by rewrite numbered_cons, Hann.
  - eexists _, _, ([ConsoleLog (MsgScrapingPage p u); HttpGet u] ++
                   [ConsoleError (MsgErrorOn u e)]).
    split_and!; [done|eapply grows_by_trans; [done|apply grows_by_record]| | |].
    + by repeat constructor.
    + cbn [app requested]. constructor; [by apply Hurl|done].
    + cbn [app requested announced]. by rewrite numbered_cons.
Qed.

Lemma scrapeSite_requests (site : Site) (fuel : nat) (st : St) :
  ∃ r st' t,
    scrapeSite fuel site st = (r, st') ∧
    grows_by st st' t ∧
    Forall (fun e => is_walk_event e = true) t ∧
    Forall (reachable site) (requested t) ∧
    announced t = numbered 1 (requested t).
Proof.
  rewrite scrapeSite_unfold.
  destruct (walk_requests site fuel (Some (site_url site)) 1 []
              (record (ConsoleLog (MsgStarting (site_name site))) st))
    as (r & st1 & t & -> & Hg & He & Hreq & Hann).
  { intros u [= <-]. by left. }
  assert (grows_by st st1 ([ConsoleLog (MsgStarting (site_name site))] ++ t)) as Hg1.
  { eapply grows_by_trans; [apply grows_by_record|done]. }
  destruct r as [items|e|].
  - exists (Ok items), (record (ConsoleLog (MsgFound (length items) (site_name site))) st1),
      (([ConsoleLog (MsgStarting (site_name site))] ++ t) ++
       [ConsoleLog (MsgFound (length items) (site_name site))]).
    split_and!; [done|eapply grows_by_trans; [done|apply grows_by_record]| | |].
    + apply Forall_app. split; [by constructor|by repeat constructor].
    + rewrite requested_app. cbn [app requested]. by rewrite app_nil_r.
    + rewrite announced_app, requested_app. cbn [app requested announced].
      by rewrite !app_nil_r.
  - exists (Throw e), st1, ([ConsoleLog (MsgStarting (site_name site))] ++ t).
    split_and!; [done..|by constructor|done|done].
  - exists OutOfFuel, st1, ([ConsoleLog (MsgStarting (site_name site))] ++ t).
    split_and!; [done..|by constructor|done|done].
Qed.

(** X13: a walk requests nothing but the start URL of its site and URLs
    that the resolver produced against that start URL: next-page links are
    always resolved against the start URL, never against the page that
    carries them, and no other URL is ever requested. *)
Theorem requests_stay_on_site (site : Site) (fuel : nat) (st : St) :
  ∃ t, grows_by st (snd (scrapeSite fuel site st)) t ∧
       Forall (reachable_url url_resolve site) (requested t).
Proof.
  destruct (scrapeSite_requests site fuel st) as (r & st' & t & -> & Hg & _ & Hreq & _).
  by exists t.
Qed.

(** X14: the pages of a walk are announced on the console with the numbers
    1, 2, 3, ... in the order of the requests, one announcement per request
    and for the requested URL. *)
Theorem pages_numbered_from_one (site : Site) (fuel : nat) (st : St) :
  ∃ t, grows_by st (snd (scrapeSite fuel site st)) t ∧
       announced t = imap (fun i u => (1 + Z.of_nat i, u)) (requested t).
Proof.
  destruct (scrapeSite_requests site fuel st) as (r & st' & t & -> & Hg & _ & _ & Hann).
  by exists t.
Qed.

Lemma forSites_events (fuel : nat) (sites : list Site) :
  ∀ acc (st : St),
    ∃ r st' t,
      forSites fuel sites acc st = (r, st') ∧
      grows_by st st' t ∧ Forall (fun e => is_walk_event e = true) t.
Proof.
  induction sites as [|site rest IH]; intros acc st.
  { exists (Ok acc), st, []. split_and!; [done|apply grows_by_refl|done]. }
  cbn [Scraper.forSites]. unfold bind.
  destruct (scrapeSite_requests site fuel st) as (r & st1 & t & -> & Hg & He & _).
  destruct r as [items|e|]; [|by eexists _, _, _..].
  destruct (IH (dedupRows items acc) st1) as (r & st' & t' & -> & Hg' & He').
  exists r, st', (t ++ t'). split_and!; [done|by eapply grows_by_trans|].
  by apply Forall_app.
Qed.

End Requests.

(** ** Runs *)

Section Runs.

Context {World : Type}.
Local Abbreviation St := (Scraper.St World).
Variable http_get : string -> World -> option Document * World.
Variable url_resolve : string -> string -> option string.
Variable sheets_get : World -> option (option (list (list string))) * World.
Variable sheets_append : list Row -> World -> bool * World.

Local Abbreviation scrapeSite := (Scraper.scrapeSite http_get url_resolve).
Local Abbreviation forSites := (Scraper.forSites http_get url_resolve).
Local Abbreviation getExistingEntries := (Scraper.getExistingEntries sheets_get).
Local Abbreviation appendToSheet := (Scraper.appendToSheet sheets_append).
Local Abbreviation run :=
  (Scraper.run http_get url_resolve sheets_get sheets_append).

(** X15: in every run the sheet is read once, before anything else; the
    sites are then walked without touching the sheet; and the sheet is
    written at most once, after the last page request, with a non-empty
    batch of rows.  No run appends an empty batch, and none appends twice. *)
Theorem run_trace_shape (fuel : nat) (sites : list Site) (st : St) :
  ∃ t tail,
    grows_by st (snd (run fuel sites st)) (SheetsGet :: t ++ tail) ∧
    Forall (fun e => is_walk_event e = true) t ∧
    run_tail tail.
Proof.
  unfold Scraper.run, bind.
  destruct (getExistingEntries_trace sheets_get st) as (r & st1 & -> & Hg).
  destruct r as [existing|e|];
    [|exists [], []; split_and!; [done|done|constructor]..].
  destruct (forSites_events http_get url_resolve fuel sites (existing, []) st1)
    as (r & st2 & t & -> & Hg2 & He).
  assert (grows_by st st2 (SheetsGet :: t ++ [])) as Hg3.
  { rewrite app_nil_r. by apply (grows_by_trans _ st1 _ [_]). }
  destruct r as [acc|e|];
    [|exists t, []; split_and!; [done|done|constructor]..].
  destruct (0 <? length acc.2)%nat eqn:Hlen.
  - assert (acc.2 ≠ []) as Hne by (intros E; by rewrite E in Hlen).
    unfold Scraper.appendToSheet.
    destruct (sheets_append acc.2 (world st2)) as [[|] w]; cbn [snd].
    + exists t, [SheetsAppend acc.2; ConsoleLog (MsgAdded (length acc.2))].
      split_and!; [|done|by constructor].
      unfold grows_by in *. cbn. rewrite Hg3, app_nil_r. by rewrite <- !app_assoc.
    + exists t, [SheetsAppend acc.2]. split_and!; [|done|by constructor].
      unfold grows_by in *. cbn. rewrite Hg3, app_nil_r. by rewrite <- !app_assoc.
  - exists t, [ConsoleLog MsgNoNewAuctions]. split_and!; [|done|constructor].
    unfold grows_by in *. cbn. rewrite Hg3, app_nil_r. by rewrite <- !app_assoc.
Qed.

Lemma forSites_bad_descriptor (fuel : nat) (pre : list Site) (site : Site)
    (post : list Site) :
  site_pagination site = None ->
  truthy (site_url site) = true ->
  ∀ acc (st : St) v, fst (forSites fuel (pre ++ site :: post) acc st) ≠ Ok v.
Proof.
  intros Hpg Hu. induction pre as [|s pre IH]; intros acc st v.
  - cbn [app Scraper.forSites]. unfold bind. destruct fuel as [|fuel].
    + by rewrite scrapeSite_unfold.
    + by rewrite (scrapeSite_without_pagination http_get url_resolve fuel site st Hpg Hu).
  - cbn [app Scraper.forSites]. unfold bind.
    destruct (scrapeSite fuel s st) as [[items|e|] st1]; [apply IH|done..].
Qed.

(** X16: one descriptor without [pagination] object (and with a start URL)
    anywhere in the site list spoils the whole run: the run never completes
    and never writes to the sheet, so the new rows of the sites walked
    before it are lost as well. *)
Theorem run_spoiled_by_descriptor (fuel : nat) (pre : list Site) (site : Site)
    (post : list Site) (st : St) :
  site_pagination site = None ->
  truthy (site_url site) = true ->
  fst (run fuel (pre ++ site :: post) st) ≠ Ok tt ∧
  ∃ t, grows_by st (snd (run fuel (pre ++ site :: post) st)) t ∧
       List.filter is_append t = [].
Proof.
  intros Hpg Hu. unfold Scraper.run, bind.
  destruct (getExistingEntries_trace sheets_get st) as (r & st1 & -> & Hg).
  destruct r as [existing|e|]; [|split; [done|by exists [SheetsGet]]..].
  pose proof (forSites_bad_descriptor fuel pre site post Hpg Hu (existing, []) st1) as Hbad.
  destruct (forSites_trace http_get url_resolve fuel (pre ++ site :: post) (existing, []) st1)
    as (r & st2 & t & Hfor & Hg2 & Hn).
  rewrite Hfor in Hbad |- *. cbn [fst] in Hbad.
  assert (grows_by st st2 ([SheetsGet] ++ t)) as Hg3 by by eapply grows_by_trans.
  destruct r as [acc|e|]; [by destruct (Hbad acc)| |].
  - split; [done|]. exists ([SheetsGet] ++ t). split; [done|].
    by rewrite List.filter_app, Hn.
  - split; [done|]. exists ([SheetsGet] ++ t). split; [done|].
    by rewrite List.filter_app, Hn.
Qed.

Lemma cell_short (row : list string) (i : nat) : (length row <= i)%nat -> cell row i = "".
Proof. intros H. unfold cell. by rewrite lookup_ge_None_2. Qed.

(** X17: when the sheet answers, the key set loaded at the start of a run
    holds exactly the keys of the rows after the first: the first row never
    counts, a sheet without values or with its header only gives the empty
    set, and a stored row with fewer than six cells has an empty link in
    its key. *)
Theorem existing_keys_loaded (st : St) (values : option (list (list string))) (w : World) :
  sheets_get (world st) = (Some values, w) ->
  getExistingEntries st =
    (Ok (keys_of_values values), {| world := w; trace := trace st ++ [SheetsGet] |}) ∧
  (∀ k, k ∈ keys_of_values values ↔
        ∃ i row, default [] values !! S i = Some row ∧ sheet_key row = k) ∧
  ((length (default [] values) <= 1)%nat -> keys_of_values values = ∅) ∧
  (∀ row, (length row <= 5)%nat -> sheet_key row = cell row 0 +:+ "|").
Proof.
  intros Hget. split_and!.
  - unfold Scraper.getExistingEntries. by rewrite Hget.
  - intros k. unfold keys_of_values.
    rewrite elem_of_list_to_set, list_elem_of_fmap. split.
    + intros (row & -> & Hin). apply list_elem_of_lookup in Hin as [i Hi].
      rewrite lookup_drop in Hi. by exists i, row.
    + intros (i & row & Hi & <-). exists row. split; [done|].
      apply list_elem_of_lookup. exists i. by rewrite lookup_drop.
  - intros Hlen. unfold keys_of_values.
    destruct (default [] values) as [|hdr [|row rows]]; [done..|simpl in Hlen; lia].
  - intros row Hlen. unfold sheet_key. rewrite (cell_short row 5 Hlen).
    by rewrite app_empty_r.
Qed.

End Runs.

(** ** Counting *)

Lemma keys_of_queued_difference (existing : gset string) (rows : list Row) :
  keys_of (queued existing rows) = keys_of rows ∖ existing.
Proof.
  pose proof (keys_of_queued rows existing) as Heq.
  assert (∀ k, k ∈ keys_of (queued existing rows) -> k ∉ existing) as Hfresh.
  { intros k (r & -> & Hr)%elem_of_keys_of%list_elem_of_fmap. by eapply queued_fresh. }
  apply set_eq. intros k. rewrite elem_of_difference. split.
  - intros Hk. split; [|by apply Hfresh].
    assert (k ∈ existing ∪ keys_of rows) as Hin by (rewrite <- Heq; set_solver).
    apply elem_of_union in Hin as [Hin|Hin]; [by apply Hfresh in Hk|done].
  - intros [Hk Hno].
    assert (k ∈ existing ∪ keys_of (queued existing rows)) as Hin
      by (rewrite Heq; set_solver).
    by apply elem_of_union in Hin as [Hin|Hin].
Qed.

(** X19: the keys of the queued rows are exactly the keys of the scraped
    rows that were not known, whatever the order of the rows, and the number
    of queued rows is the number of those distinct new keys. *)
Theorem queued_count (existing : gset string) (rows : list Row) :
  keys_of (queued existing rows) = keys_of rows ∖ existing ∧
  length (queued existing rows) = size (keys_of rows ∖ existing).
Proof.
  split; [apply keys_of_queued_difference|].
  rewrite <- keys_of_queued_difference. unfold keys_of.
  rewrite size_list_to_set by apply queued_NoDup. by rewrite length_fmap.
Qed.

(** ** Bounded runs *)

Section Bounded.

Context {World : Type}.
Local Abbreviation St := (Scraper.St World).
Variable http_get : string -> World -> option Document * World.
Variable url_resolve : string -> string -> option string.
Variable sheets_get : World -> option (option (list (list string))) * World.
Variable sheets_append : list Row -> World -> bool * World.
Variable json_parse_ok : string -> bool.

Local Abbreviation scrapeSite := (Scraper.scrapeSite http_get url_resolve).
Local Abbreviation forSites := (Scraper.forSites http_get url_resolve).
Local Abbreviation getExistingEntries := (Scraper.getExistingEntries sheets_get).
Local Abbreviation appendToSheet := (Scraper.appendToSheet sheets_append).
Local Abbreviation run :=
  (Scraper.run http_get url_resolve sheets_get sheets_append).
Local Abbreviation main :=
  (Scraper.main http_get url_resolve sheets_get sheets_append json_parse_ok).

Lemma scrapeSite_bounded (B : Z) (site : Site) (fuel : nat) (st : St) :
  limited B site ->
  (Z.to_nat B < fuel)%nat ->
  ∃ items st' t,
    scrapeSite fuel site st = (Ok items, st') ∧
    grows_by st st' t ∧ (pages_fetched t <= Z.to_nat B)%nat.
Proof.
  intros (pg & N & Hpg & HN & Hpos & HB) Hfuel. rewrite scrapeSite_unfold.
  destruct (walk_bounded http_get url_resolve site pg N Hpg HN Hpos fuel
              (Some (site_url site)) 1 []
              (record (ConsoleLog (MsgStarting (site_name site))) st))
    as (items & st' & t & -> & Hg & Hn); [lia|].
  exists items, (record (ConsoleLog (MsgFound (length items) (site_name site))) st'),
    (([ConsoleLog (MsgStarting (site_name site))] ++ t) ++
     [ConsoleLog (MsgFound (length items) (site_name site))]).
  split_and!; [done| |].
  - eapply grows_by_trans; [eapply grows_by_trans; [apply grows_by_record|done]|].
    apply grows_by_record.
  - rewrite !pages_fetched_app. unfold pages_fetched at 1 3. simpl. lia.
Qed.

Lemma forSites_bounded (B : Z) (fuel : nat) (sites : list Site) :
  (∀ site, site ∈ sites -> limited B site) ->
  (Z.to_nat B < fuel)%nat ->
  ∀ acc (st : St),
    ∃ acc' st' t,
      forSites fuel sites acc st = (Ok acc', st') ∧
      grows_by st st' t ∧ (pages_fetched t <= length sites * Z.to_nat B)%nat.
Proof.
  intros Hall Hfuel. induction sites as [|site rest IH]; intros acc st.
  { exists acc, st, []. split_and!; [done|apply grows_by_refl|unfold pages_fetched; simpl; lia]. }
  cbn [Scraper.forSites]. unfold bind.
  destruct (scrapeSite_bounded B site fuel st) as (items & st1 & t & -> & Hg & Hn);
    [apply Hall; left|done|].
  destruct (IH (fun s Hs => Hall s (list_elem_of_further _ _ _ Hs)) (dedupRows items acc) st1)
    as (acc' & st' & t' & -> & Hg' & Hn').
  exists acc', st', (t ++ t'). split_and!; [done|by eapply grows_by_trans|].
  rewrite pages_fetched_app. cbn [length]. lia.
Qed.

(** X20: when every configured site has a page limit between 1 and [B],
    the run returns, whatever the sites answer: fuel for [B + 1]
    evaluations of a loop condition is enough, and the run makes at most
    [B] page requests per site. *)
Theorem bounded_run_terminates (B : Z) (fuel : nat) (sites : list Site) (st : St) :
  (∀ site, site ∈ sites ->
     ∃ pg N, site_pagination site = Some pg ∧ pg_limit pg = Some N ∧ 0 < N <= B) ->
  (Z.to_nat B < fuel)%nat ->
  ∃ r st' t,
    run fuel sites st = (r, st') ∧
    r ≠ OutOfFuel ∧
    grows_by st st' t ∧
    (pages_fetched t <= length sites * Z.to_nat B)%nat.
Proof.
  intros Hall Hfuel. unfold Scraper.run, bind.
  destruct (getExistingEntries_trace sheets_get st) as (r & st1 & Hex & Hg).
  rewrite Hex. destruct r as [existing|e|].
  - destruct (forSites_bounded B fuel sites Hall Hfuel (existing, []) st1)
      as (acc & st2 & t & -> & Hg2 & Hn).
    assert (grows_by st st2 ([SheetsGet] ++ t)) as Hg3 by by eapply grows_by_trans.
    destruct (0 <? length acc.2)%nat.
    + destruct (appendToSheet_trace sheets_append acc.2 st2) as (r & st3 & t3 & Happ & Hg4 & Hok).
      rewrite Happ. exists r, st3, (([SheetsGet] ++ t) ++ SheetsAppend acc.2 :: t3).
      split_and!; [done| |by eapply grows_by_trans|].
      * unfold Scraper.appendToSheet in Happ.
        destruct (sheets_append acc.2 (world st2)) as [[|] ?]; by injection Happ as <- _.
      * rewrite !pages_fetched_app.
        assert (pages_fetched (SheetsAppend acc.2 :: t3) = 0%nat) as ->.
        { unfold Scraper.appendToSheet in Happ.
          destruct (sheets_append acc.2 (world st2)) as [[|] ?]; injection Happ as _ <-;
            unfold grows_by in Hg4; cbn in Hg4.
          - rewrite <- app_assoc in Hg4. by apply app_inv_head in Hg4 as [= <-].
          - by apply app_inv_head in Hg4 as [= <-]. }
        unfold pages_fetched at 1. simpl. lia.
    + eexists _, _, (([SheetsGet] ++ t) ++ [ConsoleLog MsgNoNewAuctions]).
      split_and!; [done|done|eapply grows_by_trans; [done|apply grows_by_record]|].
      rewrite !pages_fetched_app. unfold pages_fetched at 1 3. simpl. lia.
  - exists (Throw e), st1, [SheetsGet].
    split_and!; [done..|unfold pages_fetched; simpl; lia].
  - unfold Scraper.getExistingEntries in Hex.
    destruct (sheets_get (world st)) as [[values|] w]; discriminate.
Qed.

(** X18: with both environment variables present, the run still stops
    before any page request when the credential blob does not parse (nothing
    at all has happened then) or when the sheet cannot be read (the read is
    the only event); reading the sheet is a precondition of all scraping. *)
Theorem startup_failures (fuel : nat) (env : Env) (sites : list Site) (st : St) :
  credentials_present env = true ->
  (json_parse_ok (default "" (SERVICE_ACCOUNT_JSON env)) = false ->
   main fuel env sites st = (Uncaught SyntaxError, st)) ∧
  (∀ w,
     json_parse_ok (default "" (SERVICE_ACCOUNT_JSON env)) = true ->
     sheets_get (world st) = (None, w) ->
     main fuel env sites st =
     (Uncaught ApiError, {| world := w; trace := trace st ++ [SheetsGet] |})).
Proof.
  intros Hc. unfold Scraper.main. rewrite Hc. cbn [negb]. split.
  - by intros ->.
  - intros w -> Hget. cbn [negb].
    unfold Scraper.run, bind, Scraper.getExistingEntries. by rewrite Hget.
Qed.

End Bounded.

(** ** The properties on the demo world *)

Lemma page_rows_all_or_nothing_witness :
  (∀ items np st',
     Scraper.scrapePage Demo.http_get Demo.url_resolve Demo.example_site
       "https://example.com/auctions" 1 (Demo.start []) = (Ok (items, np), st') ->
     Forall2 (fun el r => Scraper.scrapeItem Demo.url_resolve Demo.example_site el = Ok r)
             [Demo.lot1; Demo.lot2] items) ∧
  (∃ st',
     Scraper.scrapePage Demo.http_get Demo.url_resolve
       (Demo.with_url "Nameless" "" Demo.example_site)
       "https://example.com/auctions" 1 (Demo.start []) = (Throw InvalidURL, st')).
Proof.
  split.
  - exact (proj1 (page_rows_all_or_nothing Demo.http_get Demo.url_resolve
                    Demo.example_site "https://example.com/auctions" 1 (Demo.start [])
                    (Demo.page [Demo.lot1; Demo.lot2] (Some "page2")) [] eq_refl)).
  - refine (proj2 (page_rows_all_or_nothing Demo.http_get Demo.url_resolve
                     (Demo.with_url "Nameless" "" Demo.example_site)
                     "https://example.com/auctions" 1 (Demo.start [])
                     (Demo.page [Demo.lot1; Demo.lot2] (Some "page2")) [] eq_refl)
                  Demo.lot1 InvalidURL _ eq_refl).
    apply list_elem_of_here.
Defined.

Lemma last_page_has_no_next_witness :
  Scraper.nextPageOf Demo.url_resolve (Demo.endless_site (Some 2))
    (Demo.page [Demo.lot2] (Some "more")) 2 = Ok None.
Proof.
  refine (proj1 (last_page_has_no_next Demo.http_get Demo.url_resolve
                   (Demo.endless_site (Some 2)) _ 2 2
                   (Demo.page [Demo.lot2] (Some "more")) eq_refl eq_refl _ _)); lia.
Defined.

Lemma zero_limit_is_unbounded_witness :
  Demo.scrapeSite 5 (Demo.endless_site (Some 0)) (Demo.start []) =
  Demo.scrapeSite 5 (set_limit None (Demo.endless_site (Some 0))) (Demo.start []).
Proof.
  exact (zero_limit_is_unbounded Demo.http_get Demo.url_resolve
           (Demo.endless_site (Some 0)) _ 5 (Demo.start []) eq_refl eq_refl).
Defined.

Lemma walk_without_requests_witness :
  Demo.scrapeSite 3 (Demo.endless_site (Some (-1))) (Demo.start []) =
  (Ok [], {| world := [];
             trace := [ConsoleLog (MsgStarting "Endless");
                       ConsoleLog (MsgFound 0 "Endless")] |}).
Proof.
  apply (walk_without_requests Demo.http_get Demo.url_resolve
           (Demo.endless_site (Some (-1))) 2 (Demo.start [])).
  right. eexists _, (-1). split_and!; [reflexivity..|lia].
Defined.

Lemma run_spoiled_by_descriptor_witness :
  fst (Scraper.run Demo.http_get Demo.url_resolve Demo.sheets_get Demo.sheets_append 10
         ([Demo.example_site] ++
          Demo.with_pagination None Demo.example_site :: [Demo.short_site])
         (Demo.start [Demo.header])) ≠ Ok tt.
Proof.
  refine (proj1 (run_spoiled_by_descriptor Demo.http_get Demo.url_resolve Demo.sheets_get
                   Demo.sheets_append 10 [Demo.example_site]
                   (Demo.with_pagination None Demo.example_site) [Demo.short_site]
                   (Demo.start [Demo.header]) _ _)); reflexivity.
Defined.

Lemma existing_keys_loaded_witness :
  Scraper.getExistingEntries Demo.sheets_get
    (Demo.start [Demo.header; row_cells Demo.row1]) =
  (Ok (keys_of_values (Some [Demo.header; row_cells Demo.row1])),
   {| world := [Demo.header; row_cells Demo.row1]; trace := [SheetsGet] |}).
Proof.
  refine (proj1 (existing_keys_loaded Demo.sheets_get
                   (Demo.start [Demo.header; row_cells Demo.row1])
                   (Some [Demo.header; row_cells Demo.row1])
                   [Demo.header; row_cells Demo.row1] _)); reflexivity.
Defined.

Lemma bounded_run_terminates_witness :
  ∃ r st' t,
    Scraper.run Demo.http_get Demo.url_resolve Demo.sheets_get Demo.sheets_append 6
      Demo.SITES (Demo.start [Demo.header]) = (r, st') ∧
    r ≠ OutOfFuel ∧
    grows_by (Demo.start [Demo.header]) st' t ∧
    (pages_fetched t <= 1 * 5)%nat.
Proof.
  apply (bounded_run_terminates Demo.http_get Demo.url_resolve Demo.sheets_get
           Demo.sheets_append 5 6 Demo.SITES (Demo.start [Demo.header])).
  - intros site Hin. apply list_elem_of_singleton in Hin as ->.
    eexists _, 5. split_and!; [reflexivity..|lia|lia].
  - simpl. lia.
Defined.

Lemma startup_failures_witness :
  Scraper.main Demo.http_get Demo.url_resolve (fun w : Demo.World => (None, w))
    Demo.sheets_append Demo.json_parse_ok 10 Demo.env Demo.SITES
    (Demo.start [Demo.header]) =
  (Uncaught ApiError, {| world := [Demo.header]; trace := [SheetsGet] |}) ∧
  Demo.main 10 {| SHEET_ID := Some "sheet-1"; SERVICE_ACCOUNT_JSON := Some "not json" |}
    Demo.SITES (Demo.start [Demo.header]) =
  (Uncaught SyntaxError, Demo.start [Demo.header]).
Proof.
  split.
  - exact (proj2 (startup_failures Demo.http_get Demo.url_resolve
                    (fun w : Demo.World => (None, w)) Demo.sheets_append
                    Demo.json_parse_ok 10 Demo.env Demo.SITES (Demo.start [Demo.header])
                    eq_refl) [Demo.header] eq_refl eq_refl).
  - exact (proj1 (startup_failures Demo.http_get Demo.url_resolve Demo.sheets_get
                    Demo.sheets_append Demo.json_parse_ok 10
                    {| SHEET_ID := Some "sheet-1"; SERVICE_ACCOUNT_JSON := Some "not json" |}
                    Demo.SITES (Demo.start [Demo.header]) eq_refl) eq_refl).
Defined.
